(** * A shallow embedding of the DynamoDB-JSON transformer (main.go)

  The Go program turns a typed JSON document ([{"S": "hello"}],
  [{"N": "42"}], ...) into plain JSON.  This file embeds its functions
  [TransformJSON], [FormatString], [FormatNum], [FormatBool],
  [FormatNull], [FormatMap], [FormatList], [sanitizeKey] and
  [ParseSchema] and proves the properties stated about them.

  Conventions of the embedding:
  - a Go [string] is a Rocq [string] (a sequence of bytes);
  - a Go [interface{}] holding decoded JSON is the inductive [value];
  - a Go [map[string]interface{}] is the list of its entries in the order
    in which [range] visits them; Go leaves that order unspecified, so
    every statement below is quantified over all entry lists;
  - a failed unchecked type assertion ([v.(string)]) is the outcome
    [Panic] of the [result] monad;
  - the functions of Go's standard library that parse text
    ([strconv.ParseFloat], [time.Parse]) are fields of the class
    [StdLib]; [strings.TrimSpace] and [strings.Contains] are modelled
    in full. *)

From Stdlib Require Import String Ascii List ZArith NArith Lia Bool PrimFloat Uint63.
From Stdlib Require Import Permutation.
Import ListNotations.

Local Open Scope string_scope.
Local Open Scope list_scope.

(* ================================================================== *)
(** ** Byte strings *)

Module Bytes.

Definition bytes := list ascii.

Definition of_string : string -> bytes := list_ascii_of_string.
Definition to_string : bytes -> string := string_of_list_ascii.

Definition byte (n : N) : ascii := ascii_of_N n.

(** [hasPrefix w s]: the byte sequence [s] starts with [w]. *)
Fixpoint hasPrefix (w s : bytes) : bool :=
  match w, s with
  | [], _ => true
  | a :: w', b :: s' => Ascii.eqb a b && hasPrefix w' s'
  | _ :: _, [] => false
  end.

End Bytes.

(* ================================================================== *)
(** ** [strings.TrimSpace]

  Go trims every leading and trailing Unicode white-space rune
  ([unicode.IsSpace]).  On the UTF-8 bytes of a string those runes are
  the sequences of [whiteSpace]; a byte sequence that is not valid
  UTF-8 decodes to U+FFFD, which is not white space, so matching the
  encodings below byte for byte is what the decoder does. *)

Module Strings.
Import Bytes.

Definition whiteSpace : list bytes :=
  [ [byte 9]; [byte 10]; [byte 11]; [byte 12]; [byte 13]; [byte 32]   (* \t \n \v \f \r ' ' *)
  ; [byte 194; byte 133]                                              (* U+0085 *)
  ; [byte 194; byte 160]                                              (* U+00A0 *)
  ; [byte 225; byte 154; byte 128]                                    (* U+1680 *)
  ; [byte 226; byte 128; byte 128]; [byte 226; byte 128; byte 129]    (* U+2000 U+2001 *)
  ; [byte 226; byte 128; byte 130]; [byte 226; byte 128; byte 131]    (* U+2002 U+2003 *)
  ; [byte 226; byte 128; byte 132]; [byte 226; byte 128; byte 133]    (* U+2004 U+2005 *)
  ; [byte 226; byte 128; byte 134]; [byte 226; byte 128; byte 135]    (* U+2006 U+2007 *)
  ; [byte 226; byte 128; byte 136]; [byte 226; byte 128; byte 137]    (* U+2008 U+2009 *)
  ; [byte 226; byte 128; byte 138]                                    (* U+200A *)
  ; [byte 226; byte 128; byte 168]; [byte 226; byte 128; byte 169]    (* U+2028 U+2029 *)
  ; [byte 226; byte 128; byte 175]                                    (* U+202F *)
  ; [byte 226; byte 129; byte 159]                                    (* U+205F *)
  ; [byte 227; byte 128; byte 128] ].                                 (* U+3000 *)

(** The white-space rune a byte sequence starts with, if any. *)
Definition leadingSpace (s : bytes) : option bytes :=
  find (fun w => hasPrefix w s) whiteSpace.

(** The white-space rune a byte sequence ends with, if any (Go decodes
    the last rune by scanning backwards to its first byte). *)
Definition trailingSpace (s : bytes) : option bytes :=
  find (fun w => hasPrefix (rev w) (rev s)) whiteSpace.

(** The loop of [TrimLeftFunc]: skip one rune at a time while it is
    white space.  Every rune is at least one byte wide, so [length s]
    iterations are enough; [n] bounds the iterations. *)
Fixpoint trimLeftLoop (n : nat) (s : bytes) : bytes :=
  match n with
  | O => s
  | S n' =>
      match leadingSpace s with
      | Some w => trimLeftLoop n' (skipn (length w) s)
      | None => s
      end
  end.

Definition trimLeft (s : bytes) : bytes := trimLeftLoop (length s) s.

(** The loop of [TrimRightFunc], which drops the last rune while it is
    white space. *)
Fixpoint trimRightLoop (n : nat) (s : bytes) : bytes :=
  match n with
  | O => s
  | S n' =>
      match trailingSpace s with
      | Some w => trimRightLoop n' (firstn (length s - length w) s)
      | None => s
      end
  end.

Definition trimRight (s : bytes) : bytes := trimRightLoop (length s) s.

Definition TrimSpace (s : string) : string :=
  to_string (trimRight (trimLeft (of_string s))).

(** [strings.Contains s substr]. *)
Fixpoint containsBytes (substr s : bytes) : bool :=
  hasPrefix substr s ||
  match s with
  | [] => false
  | _ :: s' => containsBytes substr s'
  end.

Definition Contains (s substr : string) : bool :=
  containsBytes (of_string substr) (of_string s).

End Strings.

(* ================================================================== *)
(** ** Dynamic values and Go maps *)

(** What an [interface{}] of this program can hold: the types produced
    by [json.Unmarshal] ([nil], [bool], [float64], [string],
    [[]interface{}], [map[string]interface{}]) and [int64], which
    [FormatString] produces.  A map is the list of its entries in
    iteration order. *)
Unset Elimination Schemes.
Inductive value : Type :=
| Nil
| Bool (b : bool)
| Float64 (f : float)
| Int64 (n : Z)
| Str (s : string)
| Slice (l : list value)
| Map (m : list (string * value)).
Set Elimination Schemes.

Definition object := list (string * value).

(** [m[k] = v]: replace the entry of [k], or add one. *)
Fixpoint mapSet (m : object) (k : string) (v : value) : object :=
  match m with
  | [] => [(k, v)]
  | (k', v') :: m' =>
      if String.eqb k' k then (k, v) :: m' else (k', v') :: mapSet m' k v
  end.

(** [v, ok := m[k]] on a map with values of any type. *)
Fixpoint mapGet {A : Type} (m : list (string * A)) (k : string) : option A :=
  match m with
  | [] => None
  | (k', v) :: m' => if String.eqb k' k then Some v else mapGet m' k
  end.

Definition keys (m : object) : list string := map fst m.

(* ================================================================== *)
(** ** Outcomes: a value, or a run-time panic *)

Inductive result (A : Type) : Type :=
| Ok (a : A)
| Panic.

Arguments Ok {A} a.
Arguments Panic {A}.

Definition bind {A B : Type} (r : result A) (k : A -> result B) : result B :=
  match r with
  | Ok a => k a
  | Panic => Panic
  end.

Notation "x <- r ;; k" := (bind r (fun x => k))
  (at level 61, r at next level, right associativity).

(** [for _, x := range xs { state = body state x }], stopping at the
    first panic. *)
Definition range {X S : Type} (body : S -> X -> result S) : list X -> S -> result S :=
  fix loop (xs : list X) (state : S) : result S :=
    match xs with
    | [] => Ok state
    | x :: xs' => state' <- body state x ;; loop xs' state'
    end.

(* ================================================================== *)
(** ** The parts of Go's standard library the rules call *)

(** A [time.Time]: an instant as whole seconds since the Unix epoch and
    the nanoseconds within that second. *)
Record Time : Type := { sec : Z; nsec : Z }.

(** Two's-complement reading of an integer as an [int64]. *)
Definition int64 (z : Z) : Z := (z + 2 ^ 63) mod 2 ^ 64 - 2 ^ 63.

(** [t.Unix()]: the seconds of the instant, as an [int64]; the
    nanoseconds play no part. *)
Definition Unix (t : Time) : Z := int64 (sec t).

(** The error value a library call returns beside its result. *)
Inductive liberror : Type := LibError (msg : string).

(** The text parsers.  A call that returns [err == nil] is [inl] of its
    result; a call that returns an error is [inr] (the value Go returns
    beside a non-nil error is never read by this program). *)
Class StdLib : Type := {
  (** [strconv.ParseFloat(s, 64)] *)
  ParseFloat : string -> float + liberror;
  (** [time.Parse(time.RFC3339, s)] *)
  ParseRFC3339 : string -> Time + liberror
}.

(* ================================================================== *)
(** ** The transformation engine *)

(** The function values stored in the rule table. *)
Inductive TransformationRule : Type :=
| FormatStringRule | FormatNumRule | FormatBoolRule
| FormatNullRule | FormatMapRule | FormatListRule.

Definition TransformRules : list (string * TransformationRule) :=
  [ ("S", FormatStringRule)
  ; ("N", FormatNumRule)
  ; ("BOOL", FormatBoolRule)
  ; ("NULL", FormatNullRule)
  ; ("M", FormatMapRule)
  ; ("L", FormatListRule) ].

Definition sanitizeKey (key : string) : string := Strings.TrimSpace key.

Section Engine.
Context {lib : StdLib}.

Definition FormatString (v : value) : result value :=
  match v with
  | Str strVal =>
      match ParseRFC3339 strVal with
      | inl t => Ok (Int64 (Unix t))
      | inr _ => Ok (Str strVal)
      end
  | _ => Panic
  end.

Definition FormatNum (v : value) : result value :=
  match v with
  | Str numStr =>
      let num := 0%float in
      let num := match ParseFloat numStr with
                 | inl val => val
                 | inr _ => num
                 end in
      Ok (Float64 num)
  | _ => Panic
  end.

Definition FormatBool (v : value) : result value :=
  match v with
  | Str boolStr =>
      if (String.eqb boolStr "1" || String.eqb boolStr "t" || String.eqb boolStr "true")%bool
      then Ok (Bool true)
      else Ok (Bool false)
  | _ => Panic
  end.

Definition FormatNull (v : value) : result value := Ok Nil.

Section Dispatch.
(** [FormatMap] on the values nested in the one being transformed. *)
Variable FormatMap : value -> result value.

(** The body of [FormatList]'s loop: an element that is a map is
    transformed and appended, any other element is passed over. *)
Definition FormatList_item (outList : list value) (listItem : value) : result (list value) :=
  match listItem with
  | Map _ => out <- FormatMap listItem ;; Ok (outList ++ [out])
  | _ => Ok outList
  end.

Definition FormatList_with (v : value) : result value :=
  match v with
  | Slice listValue =>
      outList <- range FormatList_item listValue [] ;; Ok (Slice outList)
  | _ => Panic
  end.

(** Calling the function value [rule]. *)
Definition call (rule : TransformationRule) (v : value) : result value :=
  match rule with
  | FormatStringRule => FormatString v
  | FormatNumRule => FormatNum v
  | FormatBoolRule => FormatBool v
  | FormatNullRule => FormatNull v
  | FormatMapRule => FormatMap v
  | FormatListRule => FormatList_with v
  end.

(** The body of the inner loop, over the entries [(k, v)] of a value
    that is a map; [key] is the sanitized outer key. *)
Definition TransformJSON_tag (key : string) (outMap : object) (kv : string * value)
  : result object :=
  let k := sanitizeKey (fst kv) in
  match mapGet TransformRules k with
  | Some rule => out <- call rule (snd kv) ;; Ok (mapSet outMap key out)
  | None => Ok outMap
  end.

(** The merge loop [for k, v := range outMap { output[k] = v }]. *)
Definition TransformJSON_merge (output : object) (kv : string * value) : result object :=
  Ok (mapSet output (fst kv) (snd kv)).

(** The body of the outer loop, over the entries [(key, value)] of the
    input map. *)
Definition TransformJSON_entry (output : object) (kv : string * value) : result object :=
  let key := sanitizeKey (fst kv) in
  if String.eqb key "" then Ok output
  else
    outMap <- match snd kv with
              | Map val => range (TransformJSON_tag key) val []
              | _ => Ok []
              end ;;
    if (0 <? length outMap)%nat
    then range TransformJSON_merge outMap output
    else Ok output.

Definition TransformJSON_with (inputMap : object) : result object :=
  range TransformJSON_entry inputMap [].

End Dispatch.

(** [FormatMap] asserts that its argument is a map and transforms it.
    The recursion of [TransformJSON], [FormatMap] and [FormatList]
    through the rule table always descends into the value, which is what
    this fixpoint records. *)
Fixpoint FormatMap (v : value) : result value :=
  match v with
  | Map submap => out <- TransformJSON_with FormatMap submap ;; Ok (Map out)
  | _ => Panic
  end.

Definition TransformJSON (inputMap : object) : result object :=
  TransformJSON_with FormatMap inputMap.

Definition FormatList (v : value) : result value := FormatList_with FormatMap v.

End Engine.

(* ================================================================== *)
(** ** Reading the schema file *)

(** The [error] values [ParseSchema] can return: one it makes itself
    with [errors.New], or one handed back by [os.ReadFile] or
    [json.Unmarshal].  A value made by [errors.New] is equal to no other
    error value. *)
Inductive error : Type :=
| errors_New (text : string)
| FromLibrary (e : liberror).

(** The world [ParseSchema] runs in: what reading each file name yields,
    and the names passed to [os.ReadFile] so far, oldest first. *)
Record World : Type := {
  files : string -> string + liberror;
  reads : list string
}.

(** [os.ReadFile(name)]. *)
Definition ReadFile (name : string) (w : World) : World * (string + liberror) :=
  ({| files := files w; reads := reads w ++ [name] |}, files w name).

Section Schema.
(** [json.Unmarshal(data, &output)] for [output] a
    [map[string]interface{}]. *)
Variable Unmarshal : string -> object + liberror.

Definition ParseSchema (fileName : string) (w : World) : World * (object + error) :=
  if negb (Strings.Contains fileName ".json")
  then (w, inr (errors_New "config file is not a JSON file"))
  else
    let (w', r) := ReadFile fileName w in
    match r with
    | inr err => (w', inr (FromLibrary err))
    | inl fileBytes =>
        match Unmarshal fileBytes with
        | inr err => (w', inr (FromLibrary err))
        | inl output => (w', inl output)
        end
    end.

End Schema.

(* ================================================================== *)
(** ** A reference standard library

  An instance of [StdLib] on which the examples can be run.  Its
  [ParseRFC3339] accepts the date-times written
  [yyyy-mm-ddThh:mm:ss], then an optional fraction of a second, then
  [Z] or an offset [+hh:mm] / [-hh:mm], and gives each the instant it
  denotes; its [ParseFloat] reads the decimal integers of at most
  fifteen digits, which a [float64] holds exactly, and reports an error
  for any other text.  Go's parsers agree with it on every text it
  accepts.  The theorems about the engine are proved for every
  instance, not for this one. *)

Module Reference.
Import Bytes.

Definition digit (c : ascii) : option Z :=
  let n := Z.of_N (N_of_ascii c) in
  if ((48 <=? n) && (n <=? 57))%Z then Some (n - 48)%Z else None.

(** The number written by a run of decimal digits. *)
Fixpoint number (acc : Z) (s : bytes) : option Z :=
  match s with
  | [] => Some acc
  | c :: s' =>
      match digit c with
      | Some d => number (10 * acc + d)%Z s'
      | None => None
      end
  end.

(** A number of exactly the given digits, within [lo..hi]. *)
Definition field (s : bytes) (lo hi : Z) : option Z :=
  match number 0 s with
  | Some n => if ((lo <=? n) && (n <=? hi))%Z then Some n else None
  | None => None
  end.

Definition isLeap (year : Z) : bool :=
  ((year mod 4 =? 0) && (negb (year mod 100 =? 0) || (year mod 400 =? 0)))%Z.

Definition daysIn (month year : Z) : Z :=
  if (month =? 2)%Z then (if isLeap year then 29 else 28)%Z
  else if ((month =? 4) || (month =? 6) || (month =? 9) || (month =? 11))%Z then 30%Z
  else 31%Z.

(** Days from 1970-01-01 to the given day of the proleptic Gregorian
    calendar. *)
Definition daysFromCivil (year month day : Z) : Z :=
  let y := (if month <=? 2 then year - 1 else year)%Z in
  let era := (y / 400)%Z in
  let yoe := (y - era * 400)%Z in
  let mp := (if month <=? 2 then month + 9 else month - 3)%Z in
  let doy := ((153 * mp + 2) / 5 + day - 1)%Z in
  let doe := (yoe * 365 + yoe / 4 - yoe / 100 + doy)%Z in
  (era * 146097 + doe - 719468)%Z.

(** The leading run of digits of [s], and what follows it. *)
Fixpoint spanDigits (s : bytes) : bytes * bytes :=
  match s with
  | c :: s' =>
      match digit c with
      | Some _ => let (ds, rest) := spanDigits s' in (c :: ds, rest)
      | None => ([], s)
      end
  | [] => ([], [])
  end.

(** Nanoseconds written by the digits after the decimal point: the first
    nine count, the missing ones are zeros. *)
Definition nanoseconds (ds : bytes) : Z :=
  let ds9 := firstn 9 ds in
  match number 0 ds9 with
  | Some n => (n * 10 ^ Z.of_nat (9 - length ds9))%Z
  | None => 0%Z
  end.

(** The fraction of a second, if the text has one: its nanoseconds and
    the text after it. *)
Definition fraction (s : bytes) : Z * bytes :=
  match s with
  | dot :: d :: _ =>
      if (Ascii.eqb dot "."%char && match digit d with Some _ => true | None => false end)%bool
      then let (ds, rest) := spanDigits (tl s) in (nanoseconds ds, rest)
      else (0%Z, s)
  | _ => (0%Z, s)
  end.

(** The zone: [Z], or [+hh:mm] / [-hh:mm]; the offset in seconds east of
    UTC. *)
Definition zone (s : bytes) : option Z :=
  match s with
  | [z] => if Ascii.eqb z "Z"%char then Some 0%Z else None
  | [sign; h1; h2; colon; m1; m2] =>
      match field [h1; h2] 0 23, field [m1; m2] 0 59 with
      | Some hr, Some mm =>
          if Ascii.eqb colon ":"%char then
            if Ascii.eqb sign "+"%char then Some ((hr * 60 + mm) * 60)%Z
            else if Ascii.eqb sign "-"%char then Some (- ((hr * 60 + mm) * 60))%Z
            else None
          else None
      | _, _ => None
      end
  | _ => None
  end.

Definition syntaxError : liberror := LibError "cannot parse".

Definition parseRFC3339 (s : string) : Time + liberror :=
  match of_string s with
  | y1 :: y2 :: y3 :: y4 :: sep1 :: mo1 :: mo2 :: sep2 :: d1 :: d2 :: sepT
      :: h1 :: h2 :: sep3 :: mi1 :: mi2 :: sep4 :: s1 :: s2 :: rest =>
      match field [y1; y2; y3; y4] 0 9999, field [mo1; mo2] 1 12 with
      | Some year, Some month =>
          match field [d1; d2] 1 (daysIn month year),
                field [h1; h2] 0 23, field [mi1; mi2] 0 59, field [s1; s2] 0 59 with
          | Some day, Some hour, Some min, Some second =>
              if (Ascii.eqb sep1 "-"%char && Ascii.eqb sep2 "-"%char && Ascii.eqb sepT "T"%char
                  && Ascii.eqb sep3 ":"%char && Ascii.eqb sep4 ":"%char)%bool
              then
                let (ns, rest') := fraction rest in
                match zone rest' with
                | Some offset =>
                    inl {| sec := (daysFromCivil year month day * 86400
                                   + hour * 3600 + min * 60 + second - offset)%Z;
                           nsec := ns |}
                | None => inr syntaxError
                end
              else inr syntaxError
          | _, _, _, _ => inr syntaxError
          end
      | _, _ => inr syntaxError
      end
  | _ => inr syntaxError
  end.

Definition parseFloat (s : string) : float + liberror :=
  match of_string s with
  | [] => inr syntaxError
  | ds =>
      if (length ds <=? 15)%nat then
        match number 0 ds with
        | Some n => inl (PrimFloat.of_uint63 (Uint63.of_Z n))
        | None => inr syntaxError
        end
      else inr syntaxError
  end.

#[export] Instance stdlib : StdLib :=
  {| ParseFloat := parseFloat; ParseRFC3339 := parseRFC3339 |}.

End Reference.

(* ================================================================== *)
(** ** Predicates used in the statements *)

(** A run of white-space runes. *)
Inductive WhiteSpaces : Bytes.bytes -> Prop :=
| ws_nil : WhiteSpaces []
| ws_cons w l : In w Strings.whiteSpace -> WhiteSpaces l -> WhiteSpaces (w ++ l).

(** The string neither starts nor ends with a white-space rune. *)
Definition trimmed (s : string) : bool :=
  match Strings.leadingSpace (Bytes.of_string s), Strings.trailingSpace (Bytes.of_string s) with
  | None, None => true
  | _, _ => false
  end.

(** A key as the engine writes it: not empty, and trimmed. *)
Definition cleanKey (k : string) : bool := negb (String.eqb k "") && trimmed k.

(** Every key of every map inside the value is clean. *)
Fixpoint cleanKeys (v : value) : bool :=
  match v with
  | Map m => forallb (fun kv => cleanKey (fst kv) && cleanKeys (snd kv)) m
  | Slice l => forallb cleanKeys l
  | _ => true
  end.

Definition isStr (v : value) : bool :=
  match v with Str _ => true | _ => false end.

Definition isMap (v : value) : bool :=
  match v with Map _ => true | _ => false end.

(** The tag key is, once sanitized, a key of the rule table. *)
Definition recognizedTag (k : string) : bool :=
  match mapGet TransformRules (sanitizeKey k) with Some _ => true | None => false end.

(** The value is a map that carries a recognized tag key. *)
Definition tagged (v : value) : bool :=
  match v with
  | Map val => existsb (fun kv => recognizedTag (fst kv)) val
  | _ => false
  end.

(** The entries [TransformJSON] passes over: the sanitized key is empty,
    or the value is not a map, or the map has no recognized tag key. *)
Definition dropped (kv : string * value) : bool :=
  String.eqb (sanitizeKey (fst kv)) "" || negb (tagged (snd kv)).

Section Shapes.
(** [shaped] on the values nested in the one being examined. *)
Variable shaped : value -> bool.

Definition shapedItem (listItem : value) : bool :=
  match listItem with Map _ => shaped listItem | _ => true end.

(** The payload has the dynamic type the rule asserts. *)
Definition shapedPayload (rule : TransformationRule) (v : value) : bool :=
  match rule with
  | FormatStringRule | FormatNumRule | FormatBoolRule => isStr v
  | FormatNullRule => true
  | FormatMapRule => shaped v
  | FormatListRule => match v with Slice l => forallb shapedItem l | _ => false end
  end.

Definition shapedTag (kv : string * value) : bool :=
  match mapGet TransformRules (sanitizeKey (fst kv)) with
  | Some rule => shapedPayload rule (snd kv)
  | None => true
  end.

Definition shapedEntry (kv : string * value) : bool :=
  String.eqb (sanitizeKey (fst kv)) "" ||
  match snd kv with Map val => forallb shapedTag val | _ => true end.

End Shapes.

(** A map in which every payload the dispatcher hands to a rule has the
    type that rule asserts, at every depth. *)
Fixpoint shaped (v : value) : bool :=
  match v with
  | Map m => forallb (shapedEntry shaped) m
  | _ => false
  end.

Definition wellShaped (inputMap : object) : bool := forallb (shapedEntry shaped) inputMap.

(** The error [ParseSchema] makes when the name check fails. *)
Definition notJSONFile : error := errors_New "config file is not a JSON file".

Section Outcomes.
Context {lib : StdLib}.

(** [FormatMap] returns on the value, rather than panic. *)
Definition returns (v : value) : Prop := exists out, FormatMap v = Ok out.

(** [out] is what the dispatcher returns on the map [item]. *)
Definition transformed (item out : value) : Prop :=
  exists val o, item = Map val /\ TransformJSON val = Ok o /\ out = Map o.

(** Whatever [FormatMap] returns on the value has clean keys. *)
Definition cleanResult (v : value) : Prop :=
  forall out, FormatMap v = Ok out -> cleanKeys out = true.

End Outcomes.

(** The number of constructors of a value, for induction. *)
Fixpoint size (v : value) : nat :=
  match v with
  | Map m => S (list_sum (map (fun kv => size (snd kv)) m))
  | Slice l => S (list_sum (map size l))
  | _ => 1
  end.

(* ================================================================== *)
(** ** The program around the engine *)

(** [err.Error()]. *)
Definition Error (err : error) : string :=
  match err with
  | errors_New text => text
  | FromLibrary (LibError msg) => msg
  end.

(** How a run of [main] ends: it returns, or a panic of the engine
    stops the process. *)
Inductive exit : Type := Returned | Crashed.

(** What a run of [main] leaves: the world, the lines written to the
    standard output, and how it ended. *)
Record Run : Type := {
  world : World;
  stdout : list string;
  status : exit
}.

(** [fmt.Println("error :", err)]: the operands, a space between them. *)
Definition errorLine (msg : string) : string := ("error : " ++ msg)%string.

Section Program.
Context {lib : StdLib}.
(** [json.Unmarshal] into a [map[string]interface{}], and
    [json.Marshal] of one, as a string. *)
Variable Unmarshal : string -> object + liberror.
Variable Marshal : object -> string + liberror.

(** [main], from the point where [flag.Parse] has read the command line:
    [config] is the value given for [-config], if any, and the flag's
    default is ["schema.json"]. *)
Definition main (config : option string) (w : World) : Run :=
  let schemaFlag := match config with Some name => name | None => "schema.json" end in
  let (w', parsed) := ParseSchema Unmarshal schemaFlag w in
  match parsed with
  | inr err => {| world := w'; stdout := [errorLine (Error err)]; status := Returned |}
  | inl inputMap =>
      match TransformJSON inputMap with
      | Panic => {| world := w'; stdout := []; status := Crashed |}
      | Ok output =>
          match Marshal output with
          | inr err =>
              {| world := w'; stdout := [errorLine (Error (FromLibrary err))];
                 status := Returned |}
          | inl out => {| world := w'; stdout := [out]; status := Returned |}
          end
      end
  end.

End Program.

(* ================================================================== *)
(** ** More predicates on inputs and outputs *)

(** The entry is not dropped. *)
Definition live (kv : string * value) : bool := negb (dropped kv).

(** The sanitized keys of the entries that are not dropped, in iteration
    order. *)
Definition liveKeys (inputMap : object) : list string :=
  map (fun kv => sanitizeKey (fst kv)) (filter live inputMap).

(** The entry with a recognized tag key that the inner loop visits
    last. *)
Definition lastTag (val : object) : option (string * value) :=
  find (fun kv => recognizedTag (fst kv)) (rev val).

(** The entry that is not dropped and whose sanitized key is [k] that
    the outer loop visits last. *)
Definition lastLive (k : string) (inputMap : object) : option (string * value) :=
  find (fun kv => live kv && String.eqb (sanitizeKey (fst kv)) k) (rev inputMap).

Section Yields.
Context {lib : StdLib}.

(** What an entry that is not dropped contributes: the result of the
    rule of the recognized tag visited last. *)
Definition yields (kv : string * value) (x : value) : Prop :=
  exists val tag rule,
    snd kv = Map val /\ lastTag val = Some tag /\
    mapGet TransformRules (sanitizeKey (fst tag)) = Some rule /\
    call FormatMap rule (snd tag) = Ok x.

End Yields.

(** Every array inside the value holds maps only. *)
Fixpoint objectArrays (v : value) : bool :=
  match v with
  | Map m => forallb (fun kv => objectArrays (snd kv)) m
  | Slice l => forallb (fun x => isMap x && objectArrays x) l
  | _ => true
  end.

Section ArraysResult.
Context {lib : StdLib}.

(** Whatever [FormatMap] returns on the value has arrays of maps only. *)
Definition arraysResult (v : value) : Prop :=
  forall out, FormatMap v = Ok out -> objectArrays out = true.

End ArraysResult.

(** The dynamic type of what each rule returns. *)
Definition resultType (rule : TransformationRule) (x : value) : bool :=
  match rule, x with
  | FormatStringRule, Str _ => true
  | FormatStringRule, Int64 _ => true
  | FormatNumRule, Float64 _ => true
  | FormatBoolRule, Bool _ => true
  | FormatNullRule, Nil => true
  | FormatMapRule, Map _ => true
  | FormatListRule, Slice _ => true
  | _, _ => false
  end.


(* ================================================================== *)
(** ** Facts about byte strings and trimming *)

Section BytesFacts.
Import Bytes Strings.

Lemma hasPrefix_spec w s :
  hasPrefix w s = true <-> exists t, s = w ++ t.
Proof.
  revert s; induction w as [|a w IH]; intros s; simpl.
  - split; [exists s; reflexivity | reflexivity].
  - destruct s as [|b s].
    + split; [discriminate | intros [t Ht]; discriminate].
    + rewrite andb_true_iff, Ascii.eqb_eq, IH. split.
      * intros [-> [t ->]]. exists t; reflexivity.
      * intros [t Ht]. injection Ht as -> ->. split; [reflexivity | exists t; reflexivity].
Qed.

Lemma to_of_string s : to_string (of_string s) = s.
Proof. apply string_of_list_ascii_of_string. Qed.

Lemma of_to_string l : of_string (to_string l) = l.
Proof. apply list_ascii_of_string_of_list_ascii. Qed.

Lemma of_string_app s t : of_string (s ++ t)%string = of_string s ++ of_string t.
Proof. induction s as [|c s IH]; simpl; [reflexivity | now rewrite IH]. Qed.

Lemma to_string_app l r : to_string (l ++ r) = (to_string l ++ to_string r)%string.
Proof. induction l as [|c l IH]; simpl; [reflexivity | now rewrite IH]. Qed.

Lemma whiteSpace_nonempty w : In w whiteSpace -> (1 <= length w)%nat.
Proof.
  assert (H : Forall (fun w => (1 <= length w)%nat) whiteSpace)
    by (unfold whiteSpace; repeat constructor).
  rewrite Forall_forall in H. apply H.
Qed.

Lemma leadingSpace_Some s w :
  leadingSpace s = Some w -> In w whiteSpace /\ exists t, s = w ++ t.
Proof.
  unfold leadingSpace. intros H. apply find_some in H as [Hin Hp].
  split; [assumption | now apply hasPrefix_spec].
Qed.

Lemma leadingSpace_None s w t :
  leadingSpace s = None -> In w whiteSpace -> s <> w ++ t.
Proof.
  unfold leadingSpace. intros H Hin ->.
  pose proof (find_none _ _ H w Hin) as Hf. cbv beta in Hf.
  assert (hasPrefix w (w ++ t) = true) by (apply hasPrefix_spec; now exists t).
  congruence.
Qed.

Lemma trailingSpace_Some s w :
  trailingSpace s = Some w -> In w whiteSpace /\ exists t, s = t ++ w.
Proof.
  unfold trailingSpace. intros H. apply find_some in H as [Hin Hp].
  split; [assumption|]. apply hasPrefix_spec in Hp as [t Ht].
  exists (rev t). rewrite <- (rev_involutive s), Ht, rev_app_distr, rev_involutive.
  reflexivity.
Qed.

Lemma trailingSpace_None s w t :
  trailingSpace s = None -> In w whiteSpace -> s <> t ++ w.
Proof.
  unfold trailingSpace. intros H Hin ->.
  pose proof (find_none _ _ H w Hin) as Hf. cbv beta in Hf.
  assert (hasPrefix (rev w) (rev (t ++ w)) = true)
    by (apply hasPrefix_spec; exists (rev t); apply rev_app_distr).
  congruence.
Qed.

Lemma WhiteSpaces_app l r : WhiteSpaces l -> WhiteSpaces r -> WhiteSpaces (l ++ r).
Proof.
  induction 1 as [|w l Hw Hl IH]; intros Hr; [assumption|].
  rewrite <- app_assoc. constructor; auto.
Qed.

Lemma WhiteSpaces_one w : In w whiteSpace -> WhiteSpaces w.
Proof. intros H. rewrite <- (app_nil_r w). constructor; [assumption | constructor]. Qed.

(** The left loop removes a run of white space and stops at a text that
    starts with none. *)
Lemma trimLeftLoop_spec n s :
  (length s <= n)%nat ->
  leadingSpace (trimLeftLoop n s) = None /\
  exists l, WhiteSpaces l /\ s = l ++ trimLeftLoop n s.
Proof.
  revert s; induction n as [|n IH]; intros s Hlen; simpl.
  - destruct s; [|simpl in Hlen; lia].
    split; [reflexivity | exists []; split; [constructor | reflexivity]].
  - destruct (leadingSpace s) as [w|] eqn:E.
    + apply leadingSpace_Some in E as [Hin [t ->]].
      pose proof (whiteSpace_nonempty _ Hin) as Hw.
      rewrite skipn_app, skipn_all, Nat.sub_diag. simpl.
      rewrite length_app in Hlen.
      destruct (IH t ltac:(lia)) as [Hnone [l [Hl Ht]]].
      split; [assumption|]. exists (w ++ l). split; [now constructor|].
      rewrite <- app_assoc. now rewrite <- Ht.
    + split; [assumption | exists []; split; [constructor | reflexivity]].
Qed.

(** The right loop removes a run of white space and stops at a text
    that ends with none; what it leaves is a prefix of the text. *)
Lemma trimRightLoop_spec n s :
  (length s <= n)%nat ->
  trailingSpace (trimRightLoop n s) = None /\
  exists r, WhiteSpaces r /\ s = trimRightLoop n s ++ r.
Proof.
  revert s; induction n as [|n IH]; intros s Hlen; simpl.
  - destruct s; [|simpl in Hlen; lia].
    split; [reflexivity | exists []; split; [constructor | reflexivity]].
  - destruct (trailingSpace s) as [w|] eqn:E.
    + apply trailingSpace_Some in E as [Hin [t ->]].
      pose proof (whiteSpace_nonempty _ Hin) as Hw.
      rewrite length_app, Nat.add_sub, firstn_app, firstn_all, Nat.sub_diag.
      simpl. rewrite app_nil_r.
      rewrite length_app in Hlen.
      destruct (IH t ltac:(lia)) as [Hnone [r [Hr Ht]]].
      split; [assumption|]. exists (r ++ w). split.
      * apply WhiteSpaces_app; [assumption | now apply WhiteSpaces_one].
      * rewrite app_assoc. now rewrite <- Ht.
    + split; [assumption | exists []; split; [constructor | now rewrite app_nil_r]].
Qed.

(** A prefix of a text that starts with no white space starts with
    none. *)
Lemma leadingSpace_prefix s r :
  leadingSpace (s ++ r) = None -> leadingSpace s = None.
Proof.
  intros H. destruct (leadingSpace s) as [w|] eqn:E; [|reflexivity].
  apply leadingSpace_Some in E as [Hin [t ->]].
  exfalso. apply (leadingSpace_None _ w (t ++ r) H Hin). now rewrite app_assoc.
Qed.

(** [strings.TrimSpace] takes a run of white space off each end and
    returns a trimmed string. *)
Lemma TrimSpace_spec s :
  trimmed (TrimSpace s) = true /\
  exists l r, WhiteSpaces l /\ WhiteSpaces r /\
    of_string s = l ++ of_string (TrimSpace s) ++ r.
Proof.
  unfold TrimSpace, trimmed, trimLeft, trimRight. rewrite of_to_string.
  destruct (trimLeftLoop_spec (length (of_string s)) (of_string s) (le_n _))
    as [HL [l [Hl El]]].
  set (a := trimLeftLoop (length (of_string s)) (of_string s)) in *.
  destruct (trimRightLoop_spec (length a) a (le_n _)) as [HR [r [Hr Er]]].
  set (b := trimRightLoop (length a) a) in *.
  rewrite Er in HL. apply leadingSpace_prefix in HL. rewrite HL, HR.
  split; [reflexivity|]. exists l, r. repeat split; try assumption.
  now rewrite <- Er.
Qed.

Lemma containsBytes_spec sub s :
  containsBytes sub s = true <-> exists a b, s = a ++ sub ++ b.
Proof.
  induction s as [|c s IH]; simpl.
  - rewrite orb_false_r, hasPrefix_spec. split.
    + intros [t Ht]. exists [], t. assumption.
    + intros [a [b H]]. destruct a; [now exists b | discriminate].
  - rewrite orb_true_iff, hasPrefix_spec, IH. split.
    + intros [[t Ht] | [a [b H]]].
      * exists [], t. assumption.
      * exists (c :: a), b. simpl. now rewrite H.
    + intros [a [b H]]. destruct a as [|c' a]; simpl in H.
      * left. now exists b.
      * right. injection H as _ H. now exists a, b.
Qed.

Lemma Contains_spec s sub :
  Contains s sub = true <-> exists a b, s = (a ++ sub ++ b)%string.
Proof.
  unfold Contains. rewrite containsBytes_spec. split.
  - intros [a [b H]]. exists (to_string a), (to_string b).
    rewrite <- (to_of_string s), H, !to_string_app, to_of_string. reflexivity.
  - intros [a [b ->]]. exists (of_string a), (of_string b).
    now rewrite !of_string_app.
Qed.

End BytesFacts.

(* ================================================================== *)
(** ** Facts about values, maps and loops *)

Lemma size_entry m k v : In (k, v) m -> (size v < size (Map m))%nat.
Proof.
  simpl. induction m as [|[k' v'] m IH]; simpl; intros H; [contradiction|].
  destruct H as [H | H]; [injection H as -> ->; lia | specialize (IH H); lia].
Qed.

Lemma size_item l v : In v l -> (size v < size (Slice l))%nat.
Proof.
  simpl. induction l as [|v' l IH]; simpl; intros H; [contradiction|].
  destruct H as [-> | H]; [lia | specialize (IH H); lia].
Qed.

Lemma value_size_ind (P : value -> Prop) :
  (forall v, (forall u, (size u < size v)%nat -> P u) -> P v) -> forall v, P v.
Proof.
  intros step v. remember (size v) as n eqn:E.
  revert v E. induction n as [n IH] using lt_wf_ind.
  intros v ->. apply step. intros u Hu. exact (IH _ Hu u eq_refl).
Qed.

Lemma mapSet_twice m k v v' : mapSet (mapSet m k v) k v' = mapSet m k v'.
Proof.
  induction m as [|[k' w] m IH]; simpl.
  - now rewrite String.eqb_refl.
  - destruct (String.eqb k' k) eqn:E; simpl.
    + now rewrite String.eqb_refl.
    + now rewrite E, IH.
Qed.

Lemma keys_mapSet m k v k' : In k' (keys (mapSet m k v)) <-> In k' (keys m) \/ k' = k.
Proof.
  unfold keys. induction m as [|[k0 w] m IH]; simpl.
  - intuition congruence.
  - destruct (String.eqb k0 k) eqn:E; simpl.
    + apply String.eqb_eq in E. subst k0. intuition congruence.
    + rewrite IH. tauto.
Qed.

Lemma bind_Ok {A B} (r : result A) (k : A -> result B) b :
  bind r k = Ok b -> exists a, r = Ok a /\ k a = Ok b.
Proof. destruct r as [a|]; simpl; [now exists a | discriminate]. Qed.

(** A property of the state that every iteration keeps holds after the
    loop. *)
Lemma range_invariant {X S} (I : S -> Prop) (body : S -> X -> result S) xs :
  (forall s x s', In x xs -> I s -> body s x = Ok s' -> I s') ->
  forall s s', I s -> range body xs s = Ok s' -> I s'.
Proof.
  induction xs as [|x xs IH]; intros Hstep s s' Hs; simpl.
  - intros [= <-]. assumption.
  - intros H. apply bind_Ok in H as [s1 [H1 H2]].
    apply (IH (fun s0 x0 s0' Hin => Hstep s0 x0 s0' (or_intror Hin)) s1 s');
      [|assumption].
    apply (Hstep s x s1); [now left | assumption | assumption].
Qed.

(** A loop whose iterations succeed or panic whatever the state returns
    exactly when every iteration succeeds. *)
Lemma range_Ok_iff {X S} (body : S -> X -> result S) (good : X -> bool) xs :
  (forall s x, In x xs -> (exists s', body s x = Ok s') <-> good x = true) ->
  forall s, (exists s', range body xs s = Ok s') <-> forallb good xs = true.
Proof.
  induction xs as [|x xs IH]; intros Hgood s; simpl.
  - split; [reflexivity | intros _; now exists s].
  - rewrite andb_true_iff.
    assert (Hxs : forall s0 x0, In x0 xs ->
              (exists s', body s0 x0 = Ok s') <-> good x0 = true)
      by (intros s0 x0 Hin; apply Hgood; now right).
    specialize (IH Hxs). split.
    + intros [s' H]. apply bind_Ok in H as [s1 [H1 H2]]. split.
      * apply (Hgood s x); [now left | now exists s1].
      * apply (IH s1). now exists s'.
    + intros [Hx Hrest]. apply (Hgood s x (or_introl eq_refl)) in Hx as [s1 H1].
      rewrite H1. simpl. now apply IH.
Qed.

#[local] Arguments mapGet : simpl never.
#[local] Arguments sanitizeKey : simpl never.

Section EngineFacts.
Context {lib : StdLib}.

Lemma FormatMap_Map submap :
  FormatMap (Map submap) = (out <- TransformJSON submap ;; Ok (Map out)).
Proof. reflexivity. Qed.

Lemma FormatMap_Ok v out :
  FormatMap v = Ok out -> exists m o, v = Map m /\ TransformJSON m = Ok o /\ out = Map o.
Proof.
  destruct v; try discriminate. rewrite FormatMap_Map. intros H.
  apply bind_Ok in H as [o [H1 [= <-]]]. now exists m, o.
Qed.

(** The inner loop, started on an empty scratch map, leaves it empty
    when no tag key is recognized, and otherwise leaves the single entry
    [key], bound to what a recognized tag's rule returned. *)
Lemma tag_loop_spec F key val acc outMap :
  range (TransformJSON_tag F key) val acc = Ok outMap ->
  (existsb (fun kv => recognizedTag (fst kv)) val = false /\ outMap = acc) \/
  (existsb (fun kv => recognizedTag (fst kv)) val = true /\
   exists k v rule x, In (k, v) val /\
     mapGet TransformRules (sanitizeKey k) = Some rule /\
     call F rule v = Ok x /\ outMap = mapSet acc key x).
Proof.
  revert acc; induction val as [|[k v] val IH]; intros acc; simpl.
  - intros [= <-]. now left.
  - intros H. apply bind_Ok in H as [acc1 [H1 H2]].
    unfold TransformJSON_tag in H1. simpl in H1. unfold recognizedTag at 1 3. simpl.
    destruct (mapGet TransformRules (sanitizeKey k)) as [rule|] eqn:E.
    + apply bind_Ok in H1 as [x [Hx [= <-]]]. right. split; [reflexivity|].
      destruct (IH _ H2) as [[_ ->] | [_ [k' [v' [rule' [x' [Hin [Hr [Hc ->]]]]]]]]].
      * exists k, v, rule, x. auto.
      * exists k', v', rule', x'. rewrite mapSet_twice. auto.
    + injection H1 as <-. simpl.
      destruct (IH _ H2) as [[Hn ->] | [Hy [k' [v' [rule' [x' [Hin [Hr [Hc ->]]]]]]]]].
      * now left.
      * right. split; [assumption|]. exists k', v', rule', x'. auto.
Qed.

(** One iteration of the outer loop: a dropped entry leaves the output
    as it is; any other entry binds its sanitized key to what the rule
    of one of its recognized tags returned. *)
Lemma entry_spec F output kv out' :
  TransformJSON_entry F output kv = Ok out' ->
  (dropped kv = true /\ out' = output) \/
  (dropped kv = false /\
   exists val k v rule x, snd kv = Map val /\ In (k, v) val /\
     mapGet TransformRules (sanitizeKey k) = Some rule /\
     call F rule v = Ok x /\ out' = mapSet output (sanitizeKey (fst kv)) x).
Proof.
  unfold TransformJSON_entry, dropped.
  destruct (String.eqb (sanitizeKey (fst kv)) "") eqn:Ek; simpl.
  - intros [= <-]. now left.
  - intros H. apply bind_Ok in H as [outMap [H1 H2]].
    destruct (snd kv) as [| | | | | |val] eqn:Ev; simpl;
      try (injection H1 as <-; simpl in H2; injection H2 as <-; now left).
    apply tag_loop_spec in H1
      as [[Hn ->] | [Hy [k [v [rule [x [Hin [Hr [Hc ->]]]]]]]]].
    + simpl in H2. injection H2 as <-. rewrite Hn. now left.
    + simpl in H2. injection H2 as <-. rewrite Hy. right. split; [reflexivity|].
      exists val, k, v, rule, x. auto.
Qed.

(** A dropped entry is passed over without calling any rule. *)
Lemma entry_dropped F output kv :
  dropped kv = true -> TransformJSON_entry F output kv = Ok output.
Proof.
  unfold TransformJSON_entry, dropped.
  destruct (String.eqb (sanitizeKey (fst kv)) ""); simpl; [reflexivity|].
  destruct (snd kv) as [| | | | | |val]; try reflexivity. simpl.
  intros Hn. apply negb_true_iff in Hn.
  assert (Hloop : forall acc, range (TransformJSON_tag F (sanitizeKey (fst kv))) val acc = Ok acc).
  { induction val as [|[k v] val IH]; intros acc; simpl; [reflexivity|].
    simpl in Hn. apply orb_false_iff in Hn as [Hk Hrest].
    unfold TransformJSON_tag at 1. simpl. unfold recognizedTag in Hk.
    destruct (mapGet TransformRules (sanitizeKey k)); [discriminate|]. simpl.
    now apply IH. }
  rewrite Hloop. reflexivity.
Qed.

End EngineFacts.

(* ================================================================== *)
(** ** The scalar rules *)

Section ScalarRules.
Context {lib : StdLib}.

Lemma Unix_int64 t : (- 2 ^ 63 <= Unix t < 2 ^ 63)%Z.
Proof.
  unfold Unix, int64.
  pose proof (Z.mod_pos_bound (sec t + 2 ^ 63) (2 ^ 64) ltac:(lia)). lia.
Qed.

(** C3. [FormatString] on a string that [time.Parse] accepts as RFC 3339
    returns the Unix seconds of the parsed instant, an [int64]; on a
    string that [time.Parse] rejects it returns the string itself. *)
Theorem FormatString_spec (s : string) :
  (forall t, ParseRFC3339 s = inl t ->
     FormatString (Str s) = Ok (Int64 (Unix t)) /\ (- 2 ^ 63 <= Unix t < 2 ^ 63)%Z) /\
  (forall e, ParseRFC3339 s = inr e -> FormatString (Str s) = Ok (Str s)).
Proof.
  split.
  - intros t H. simpl. rewrite H. split; [reflexivity | apply Unix_int64].
  - intros e H. simpl. now rewrite H.
Qed.

(** C10. When the parsed instant has a fraction of a second,
    [FormatString] returns the whole seconds only: the same [int64] as
    for the instant with the fraction set to zero, and never a
    [float64]. *)
Theorem FormatString_whole_seconds (s : string) (t : Time) :
  ParseRFC3339 s = inl t ->
  FormatString (Str s) = Ok (Int64 (Unix {| sec := sec t; nsec := 0 |})) /\
  forall f, FormatString (Str s) <> Ok (Float64 f).
Proof.
  intros H. simpl. rewrite H. split; [reflexivity | discriminate].
Qed.

(** C4. [FormatNum] returns the number [strconv.ParseFloat] reads, and
    [0.0] when [strconv.ParseFloat] reports an error; either way the
    result is a [float64]. *)
Theorem FormatNum_spec (s : string) :
  (forall f, ParseFloat s = inl f -> FormatNum (Str s) = Ok (Float64 f)) /\
  (forall e, ParseFloat s = inr e -> FormatNum (Str s) = Ok (Float64 0%float)) /\
  (exists f, FormatNum (Str s) = Ok (Float64 f)).
Proof.
  simpl. repeat split.
  - intros f H. now rewrite H.
  - intros e H. now rewrite H.
  - destruct (ParseFloat s) as [f|e]; eauto.
Qed.

End ScalarRules.

(** C5. [FormatBool] returns [true] for the strings ["1"], ["t"] and
    ["true"] and [false] for every other string. *)
Theorem FormatBool_spec (s : string) :
  (FormatBool (Str s) = Ok (Bool true) <-> s = "1" \/ s = "t" \/ s = "true") /\
  (FormatBool (Str s) = Ok (Bool false) <-> ~ (s = "1" \/ s = "t" \/ s = "true")) /\
  FormatBool (Str "") = Ok (Bool false) /\
  FormatBool (Str "0") = Ok (Bool false) /\
  FormatBool (Str "True") = Ok (Bool false) /\
  FormatBool (Str "TRUE") = Ok (Bool false).
Proof.
  assert (E : (String.eqb s "1" || String.eqb s "t" || String.eqb s "true")%bool = true
              <-> s = "1" \/ s = "t" \/ s = "true")
    by (rewrite !orb_true_iff, !String.eqb_eq; tauto).
  assert (T : FormatBool (Str s) =
              if (String.eqb s "1" || String.eqb s "t" || String.eqb s "true")%bool
              then Ok (Bool true) else Ok (Bool false)) by reflexivity.
  split; [|split; [|now repeat split]].
  - rewrite T.
    destruct (String.eqb s "1" || String.eqb s "t" || String.eqb s "true")%bool.
    + split; [intros _; now apply E | reflexivity].
    + split; [discriminate | intros H; apply E in H; discriminate].
  - rewrite T.
    destruct (String.eqb s "1" || String.eqb s "t" || String.eqb s "true")%bool.
    + split; [discriminate | intros H; exfalso; apply H; now apply E].
    + split; [intros _ H; apply E in H; discriminate | reflexivity].
Qed.

(* ================================================================== *)
(** ** The file-name check *)

Section SchemaFacts.
Variable Unmarshal : string -> object + liberror.

(** C7. [ParseSchema] returns its own "not a JSON file" error exactly
    for the file names that do not contain [".json"], and then without
    calling [os.ReadFile]; a name that contains [".json"] is read, once,
    whatever follows.  So ["schema.txt"] is rejected unread, and
    ["my.jsonfile"] passes the check and is read. *)
Theorem ParseSchema_name_check (fileName : string) (w : World) :
  (snd (ParseSchema Unmarshal fileName w) = inr notJSONFile
     <-> ~ exists a b, fileName = (a ++ ".json" ++ b)%string) /\
  (snd (ParseSchema Unmarshal fileName w) = inr notJSONFile ->
     fst (ParseSchema Unmarshal fileName w) = w) /\
  (snd (ParseSchema Unmarshal fileName w) <> inr notJSONFile ->
     reads (fst (ParseSchema Unmarshal fileName w)) = reads w ++ [fileName]) /\
  ParseSchema Unmarshal "schema.txt" w = (w, inr notJSONFile) /\
  snd (ParseSchema Unmarshal "my.jsonfile" w) <> inr notJSONFile /\
  reads (fst (ParseSchema Unmarshal "my.jsonfile" w)) = reads w ++ ["my.jsonfile"].
Proof.
  assert (G : forall name,
    (Strings.Contains name ".json" = false /\
     ParseSchema Unmarshal name w = (w, inr notJSONFile)) \/
    (Strings.Contains name ".json" = true /\
     snd (ParseSchema Unmarshal name w) <> inr notJSONFile /\
     reads (fst (ParseSchema Unmarshal name w)) = reads w ++ [name])).
  { intros name. unfold ParseSchema.
    destruct (Strings.Contains name ".json"); simpl; [right | left; auto].
    split; [reflexivity|].
    destruct (files w name) as [fileBytes|err]; simpl.
    - destruct (Unmarshal fileBytes); simpl; split; (discriminate || reflexivity).
    - split; (discriminate || reflexivity). }
  split; [split|split; [|split; [|split; [|split]]]].
  - intros H [a [b E]].
    assert (C : Strings.Contains fileName ".json" = true)
      by (apply Contains_spec; eauto).
    destruct (G fileName) as [[C' _] | [_ [N _]]]; [congruence | auto].
  - intros H. destruct (G fileName) as [[_ E] | [C _]]; [now rewrite E|].
    exfalso. apply H. now apply Contains_spec.
  - intros H. destruct (G fileName) as [[_ E] | [_ [N _]]]; [now rewrite E | contradiction].
  - intros H. destruct (G fileName) as [[_ E] | [_ [_ R]]]; [|assumption].
    rewrite E in H. now contradiction H.
  - destruct (G "schema.txt") as [[_ E] | [C _]]; [assumption|].
    vm_compute in C. discriminate.
  - destruct (G "my.jsonfile") as [[C _] | [_ [N _]]]; [|assumption].
    vm_compute in C. discriminate.
  - destruct (G "my.jsonfile") as [[C _] | [_ [_ R]]]; [|assumption].
    vm_compute in C. discriminate.
Qed.

End SchemaFacts.

(* ================================================================== *)
(** ** The dispatcher *)

Section Dispatcher.
Context {lib : StdLib}.

Lemma bind_Ok_iff {A B} (r : result A) (k : A -> result B) :
  (exists b, bind r k = Ok b) <-> exists a, r = Ok a /\ exists b, k a = Ok b.
Proof.
  split.
  - intros [b H]. apply bind_Ok in H as [a [H1 H2]]. eauto.
  - intros [a [-> [b H]]]. simpl. eauto.
Qed.

Lemma merge_total outMap output :
  exists out, range TransformJSON_merge outMap output = Ok out.
Proof.
  revert output; induction outMap as [|kv outMap IH]; intros output; simpl; eauto.
Qed.

Lemma scalar_returns (rule : value -> result value) v :
  rule = FormatString \/ rule = FormatNum \/ rule = FormatBool ->
  (exists x, rule v = Ok x) <-> isStr v = true.
Proof.
  intros [-> | [-> | ->]]; destruct v; simpl;
    try (split; [intros [x H]; discriminate | discriminate]).
  - destruct (ParseRFC3339 s); split; eauto.
  - split; eauto.
  - destruct (String.eqb s "1" || String.eqb s "t" || String.eqb s "true")%bool;
      split; eauto.
Qed.

Lemma item_returns item acc :
  (returns item <-> shaped item = true) ->
  (exists acc', FormatList_item FormatMap acc item = Ok acc') <-> shapedItem shaped item = true.
Proof.
  intros IH. destruct item; simpl; try (split; eauto; fail).
  rewrite bind_Ok_iff. fold (FormatMap (Map m)). rewrite <- IH. unfold returns. split.
  - intros [a [H _]]. eauto.
  - intros [out H]. eauto.
Qed.

Lemma call_returns rule v :
  (forall u, (size u <= size v)%nat -> returns u <-> shaped u = true) ->
  (exists x, call FormatMap rule v = Ok x) <-> shapedPayload shaped rule v = true.
Proof.
  intros IH. destruct rule; simpl.
  - apply scalar_returns; auto.
  - apply scalar_returns; auto.
  - apply scalar_returns; auto.
  - unfold FormatNull. split; eauto.
  - apply IH. lia.
  - destruct v as [| | | | |l|]; simpl;
      try (split; [intros [x H]; discriminate | discriminate]).
    rewrite bind_Ok_iff.
    rewrite <- (range_Ok_iff (FormatList_item FormatMap) (shapedItem shaped) l
                  (fun acc item Hin => item_returns item acc
                     (IH item (Nat.lt_le_incl _ _ (size_item l item Hin)))) []).
    split; [intros [a [H _]]; eauto | intros [a H]; eauto].
Qed.

Lemma tag_returns key acc kv :
  (forall u, (size u <= size (snd kv))%nat -> returns u <-> shaped u = true) ->
  (exists acc', TransformJSON_tag FormatMap key acc kv = Ok acc') <-> shapedTag shaped kv = true.
Proof.
  intros IH. unfold TransformJSON_tag, shapedTag.
  destruct (mapGet TransformRules (sanitizeKey (fst kv))) as [rule|].
  - rewrite bind_Ok_iff, <- (call_returns rule (snd kv) IH).
    split; [intros [a [H _]]; eauto | intros [a H]; eauto].
  - split; eauto.
Qed.

Lemma entry_returns output kv :
  (forall u, (size u < size (snd kv))%nat -> returns u <-> shaped u = true) ->
  (exists out, TransformJSON_entry FormatMap output kv = Ok out)
  <-> shapedEntry shaped kv = true.
Proof.
  intros IH. unfold TransformJSON_entry, shapedEntry.
  destruct (String.eqb (sanitizeKey (fst kv)) ""); simpl; [split; eauto|].
  rewrite bind_Ok_iff.
  destruct (snd kv) as [| | | | | |val] eqn:E;
    try (split; [reflexivity | intros _; exists []; simpl; eauto]).
  rewrite <- (range_Ok_iff (TransformJSON_tag FormatMap (sanitizeKey (fst kv)))
                (shapedTag shaped) val
                (fun acc tag Hin => tag_returns (sanitizeKey (fst kv)) acc tag
                   (fun u Hu => IH u (Nat.le_lt_trans _ _ _ Hu
                      (size_entry val (fst tag) (snd tag)
                         ltac:(destruct tag; exact Hin))))) []).
  split.
  - intros [a [H _]]. eauto.
  - intros [a H]. exists a. split; [assumption|].
    destruct (0 <? length a)%nat; [apply merge_total | eauto].
Qed.

Lemma FormatMap_returns v : returns v <-> shaped v = true.
Proof.
  induction v as [v IH] using value_size_ind.
  destruct v as [| | | | | |m];
    try (split; [intros [out H]; discriminate | discriminate]).
  unfold returns. rewrite FormatMap_Map. simpl (shaped (Map m)).
  rewrite <- (range_Ok_iff (TransformJSON_entry FormatMap) (shapedEntry shaped) m
                (fun output kv Hin => entry_returns output kv
                   (fun u Hu => IH u (Nat.lt_trans _ _ _ Hu
                      (size_entry m (fst kv) (snd kv)
                         ltac:(destruct kv; exact Hin))))) []).
  unfold TransformJSON, TransformJSON_with. split.
  - intros [out H]. apply bind_Ok in H as [o [H _]]. eauto.
  - intros [o H]. rewrite H. simpl. eauto.
Qed.

(** C1, as the code has it.  [TransformJSON] returns an object exactly
    when every payload it hands to a rule has the type that rule asserts
    (a string for [S], [N] and [BOOL], a map for [M], a slice for [L]),
    at every depth; otherwise it panics.  Entries whose value is not a
    map, or whose map has no recognized tag key, are passed over and
    never make it panic. *)
Theorem TransformJSON_returns_iff_shaped (inputMap : object) :
  ((exists out, TransformJSON inputMap = Ok out) <-> wellShaped inputMap = true) /\
  (wellShaped inputMap = false <-> TransformJSON inputMap = Panic) /\
  (forall output kv, tagged (snd kv) = false ->
     TransformJSON_entry FormatMap output kv = Ok output).
Proof.
  assert (R : (exists out, TransformJSON inputMap = Ok out) <-> wellShaped inputMap = true).
  { pose proof (FormatMap_returns (Map inputMap)) as H.
    unfold returns in H. rewrite FormatMap_Map in H. simpl in H.
    fold (wellShaped inputMap) in H. rewrite <- H. split.
    - intros [out E]. rewrite E. simpl. eauto.
    - intros [out E]. apply bind_Ok in E as [o [E _]]. eauto. }
  split; [exact R | split].
  - split.
    + intros W. destruct (TransformJSON inputMap) as [out|] eqn:E; [|reflexivity].
      assert (wellShaped inputMap = true) by (apply R; eauto). congruence.
    + intros E. destruct (wellShaped inputMap) eqn:W; [|reflexivity].
      destruct (proj2 R eq_refl) as [out O]. congruence.
  - intros output kv T. apply entry_dropped. unfold dropped. rewrite T.
    apply orb_true_r.
Qed.

End Dispatcher.

(* ================================================================== *)
(** ** What the dispatcher keeps and what it drops *)

Section Dropping.
Context {lib : StdLib}.

Lemma entries_keys F m : forall output out,
  range (TransformJSON_entry F) m output = Ok out ->
  forall k, In k (keys out) <->
    In k (keys output) \/
    exists kv, In kv m /\ dropped kv = false /\ sanitizeKey (fst kv) = k.
Proof.
  induction m as [|kv m IH]; intros output out; simpl.
  - intros [= <-] k. split; [auto | intros [H | [kv [[] _]]]; assumption].
  - intros H k. apply bind_Ok in H as [out1 [H1 H2]].
    rewrite (IH _ _ H2 k).
    apply entry_spec in H1
      as [[D ->] | [D [val [k0 [v [rule [x [_ [_ [_ [_ ->]]]]]]]]]]].
    + split.
      * intros [H | [kv' [Hin Hkv]]]; [now left | right; exists kv'; auto].
      * intros [H | [kv' [[-> | Hin] [D' Hk]]]];
          [now left | congruence | right; exists kv'; auto].
    + rewrite keys_mapSet. split.
      * intros [[H | ->] | [kv' [Hin Hkv]]];
          [now left | right; exists kv; auto | right; exists kv'; auto].
      * intros [H | [kv' [[-> | Hin] [D' Hk]]]];
          [left; now left | left; now right | right; exists kv'; auto].
Qed.

Lemma entries_dropped F m : forall output,
  forallb dropped m = true -> range (TransformJSON_entry F) m output = Ok output.
Proof.
  induction m as [|kv m IH]; intros output; simpl; [reflexivity|].
  intros H. apply andb_true_iff in H as [D Hm].
  rewrite (entry_dropped F output kv D). simpl. now apply IH.
Qed.

(** C2. The keys of the object [TransformJSON] returns are the sanitized
    keys of the entries that are not dropped, where an entry is dropped
    when its sanitized key is empty, its value is not a map, or its map
    has no recognized tag key; a dropped entry leaves the output as it
    was.  An input none of whose values is a map with a recognized tag
    key is transformed to the empty object. *)
Theorem TransformJSON_drops (inputMap : object) :
  (forall out, TransformJSON inputMap = Ok out ->
     forall k, In k (keys out) <->
       exists kv, In kv inputMap /\ dropped kv = false /\ sanitizeKey (fst kv) = k) /\
  (forall output kv, dropped kv = true ->
     TransformJSON_entry FormatMap output kv = Ok output) /\
  (forallb (fun kv => negb (tagged (snd kv))) inputMap = true ->
     TransformJSON inputMap = Ok []).
Proof.
  split; [|split].
  - intros out H k. rewrite (entries_keys FormatMap inputMap [] out H k). simpl.
    split; [intros [[] | H']; assumption | auto].
  - intros output kv D. now apply entry_dropped.
  - intros H. apply entries_dropped. rewrite forallb_forall in *.
    intros kv Hin. unfold dropped. rewrite (H kv Hin). apply orb_true_r.
Qed.

End Dropping.

(* ================================================================== *)
(** ** Lists *)

Section Lists.
Context {lib : StdLib}.

Lemma FormatList_loop l : forall acc outs,
  range (FormatList_item FormatMap) l acc = Ok outs <->
  exists new, outs = acc ++ new /\ Forall2 transformed (filter isMap l) new.
Proof.
  induction l as [|item l IH]; intros acc outs; simpl.
  - split.
    + intros [= <-]. exists []. split; [now rewrite app_nil_r | constructor].
    + intros [new [-> H]]. inversion H. now rewrite app_nil_r.
  - destruct item as [| | | | | |val];
      try (simpl; exact (IH acc outs)).
    simpl (isMap _). cbv iota. unfold FormatList_item at 1.
    fold (FormatMap (Map val)). rewrite FormatMap_Map. split.
    + intros H. apply bind_Ok in H as [acc1 [H1 H2]].
      apply bind_Ok in H1 as [out [H1 [= <-]]].
      apply bind_Ok in H1 as [o [H1 [= <-]]].
      apply IH in H2 as [new [-> HF]]. exists (Map o :: new). split.
      * now rewrite <- app_assoc.
      * constructor; [now exists val, o | assumption].
    + intros [new [-> HF]]. inversion HF as [|x y xs ys Hxy Hrest]; subst.
      destruct Hxy as [val' [o [[= <-] [Ho ->]]]]. rewrite Ho. simpl.
      apply IH. exists ys. split; [now rewrite <- app_assoc | assumption].
Qed.

(** C6, as the code has it.  [FormatList] returns the array of the
    dispatcher's results on the elements that are maps, in order, the
    other elements being dropped.  Each element is handed to the
    dispatcher as a map of fields, so in the example both elements, which
    are maps with no tagged field, yield the empty object. *)
Theorem FormatList_spec (l : list value) :
  (forall outList, FormatList (Slice l) = Ok outList <->
     exists outs, outList = Slice outs /\ Forall2 transformed (filter isMap l) outs) /\
  TransformJSON
    [("a", Map [("L", Slice [Map [("M", Map [("b", Map [("N", Str "3")])])];
                             Map [("S", Str "ignored-not-object")]])])]
  = Ok [("a", Slice [Map []; Map []])].
Proof.
  split; [|reflexivity].
  intros outList. unfold FormatList, FormatList_with. split.
  - intros H. apply bind_Ok in H as [outs [H [= <-]]].
    apply FormatList_loop in H as [new [-> HF]]. now exists new.
  - intros [outs [-> HF]].
    assert (H : range (FormatList_item FormatMap) l [] = Ok outs)
      by (apply FormatList_loop; now exists outs).
    now rewrite H.
Qed.

End Lists.

(* ================================================================== *)
(** ** Keys *)

Lemma sanitizeKey_trimmed key : trimmed (sanitizeKey key) = true.
Proof. apply TrimSpace_spec. Qed.

Lemma sanitizeKey_clean key :
  String.eqb (sanitizeKey key) "" = false -> cleanKey (sanitizeKey key) = true.
Proof. intros H. unfold cleanKey. now rewrite H, sanitizeKey_trimmed. Qed.

Lemma cleanKeys_mapSet m k x :
  cleanKeys (Map m) = true -> cleanKey k = true -> cleanKeys x = true ->
  cleanKeys (Map (mapSet m k x)) = true.
Proof.
  intros Hm Hk Hx. induction m as [|[k0 w] m IH]; simpl in *.
  - now rewrite Hk, Hx.
  - apply andb_true_iff in Hm as [H0 Hm].
    destruct (String.eqb k0 k); simpl.
    + now rewrite Hk, Hx, Hm.
    + now rewrite H0, (IH Hm).
Qed.

Lemma cleanKeys_snoc outList out :
  forallb cleanKeys outList = true -> cleanKeys out = true ->
  forallb cleanKeys (outList ++ [out]) = true.
Proof. intros H1 H2. rewrite forallb_app, H1. simpl. now rewrite H2. Qed.

Section Keys.
Context {lib : StdLib}.

(** C8. [sanitizeKey] is a total function that takes a run of white
    space off each end of the key and leaves a trimmed string; a string
    payload is not sanitized: [FormatString] returns a string that is not
    a timestamp byte for byte, and [FormatBool] compares its payload as
    it stands, so [{" a ": {"S": " val"}}] becomes [{"a": " val"}]. *)
Theorem sanitizeKey_keys_only (key : string) :
  (trimmed (sanitizeKey key) = true /\
   exists l r, WhiteSpaces l /\ WhiteSpaces r /\
     Bytes.of_string key = l ++ Bytes.of_string (sanitizeKey key) ++ r) /\
  (forall s e, ParseRFC3339 s = inr e -> FormatString (Str s) = Ok (Str s)) /\
  FormatBool (Str " true ") = Ok (Bool false) /\
  (forall e, ParseRFC3339 " val" = inr e ->
     sanitizeKey " a " = "a" /\
     TransformJSON [(" a ", Map [("S", Str " val")])] = Ok [("a", Str " val")]).
Proof.
  split; [apply TrimSpace_spec | split; [|split; [reflexivity|]]].
  - intros s e H. simpl. now rewrite H.
  - intros e H. split; [reflexivity|].
    cbv -[ParseRFC3339 Unix]. rewrite H. reflexivity.
Qed.

Lemma call_clean rule v x :
  (forall u, (size u <= size v)%nat -> cleanResult u) ->
  call FormatMap rule v = Ok x -> cleanKeys x = true.
Proof.
  intros IH. destruct rule; simpl.
  - destruct v; simpl; try discriminate.
    destruct (ParseRFC3339 s); intros [= <-]; reflexivity.
  - destruct v; simpl; try discriminate. intros [= <-]; reflexivity.
  - destruct v; simpl; try discriminate.
    destruct (String.eqb s "1" || String.eqb s "t" || String.eqb s "true")%bool;
      intros [= <-]; reflexivity.
  - unfold FormatNull. intros [= <-]; reflexivity.
  - apply IH. lia.
  - destruct v as [| | | | |l|]; simpl; try discriminate.
    intros H. apply bind_Ok in H as [outList [H [= <-]]]. simpl.
    revert H. apply (range_invariant (fun acc => forallb cleanKeys acc = true));
      [|reflexivity].
    intros acc item acc' Hin Hacc. destruct item; simpl;
      try (intros [= <-]; assumption).
    fold (FormatMap (Map m)). intros H. apply bind_Ok in H as [out [H [= <-]]].
    apply cleanKeys_snoc; [assumption|].
    apply (IH (Map m)); [|assumption].
    apply Nat.lt_le_incl. now apply size_item.
Qed.

Lemma FormatMap_clean v : cleanResult v.
Proof.
  induction v as [v IH] using value_size_ind.
  intros out H. apply FormatMap_Ok in H as [m [o [-> [H ->]]]].
  revert H. unfold TransformJSON, TransformJSON_with.
  apply (range_invariant (fun output => cleanKeys (Map output) = true));
    [|reflexivity].
  intros output kv out' Hin Hout H.
  apply entry_spec in H
    as [[_ ->] | [D [val [k [v [rule [x [Ev [Hkv [_ [Hc ->]]]]]]]]]]];
    [assumption|].
  apply cleanKeys_mapSet; [assumption | |].
  - apply sanitizeKey_clean. unfold dropped in D.
    now apply orb_false_iff in D as [D _].
  - apply (call_clean rule v x); [|assumption].
    intros u Hu. apply IH.
    apply (Nat.le_lt_trans _ _ _ Hu).
    apply (Nat.lt_trans _ (size (Map val))); [now apply (size_entry val k)|].
    rewrite <- Ev. apply (size_entry m (fst kv)). now destruct kv.
Qed.

(** C9. Every key of the object [TransformJSON] returns, and of every
    object nested in it through the [M] and [L] rules, is a non-empty
    string that neither starts nor ends with white space. *)
Theorem TransformJSON_keys_clean (inputMap out : object) :
  TransformJSON inputMap = Ok out -> cleanKeys (Map out) = true.
Proof.
  intros H. apply (FormatMap_clean (Map inputMap)).
  rewrite FormatMap_Map, H. reflexivity.
Qed.

End Keys.

(* ================================================================== *)
(** ** The theorems at work, on the reference library *)

Section Examples.
Import Reference.
#[local] Existing Instance Reference.stdlib.

Example nested_recursion :
  TransformJSON [("a", Map [("M", Map [("b", Map [("S", Str "x")])])])]
  = Ok [("a", Map [("b", Str "x")])].
Proof. reflexivity. Qed.

Example unrecognized_tag :
  TransformJSON [("a", Map [("X", Str "y")])] = Ok [].
Proof. reflexivity. Qed.

Example colliding_keys_last_wins :
  TransformJSON [("a", Map [("S", Str "x")]); (" a", Map [("N", Str "12")])]
  = Ok [("a", Float64 12%float)].
Proof. reflexivity. Qed.

(** An [S] tag whose payload is not a string: the type assertion of
    [FormatString] panics, and with it the whole call. *)
Lemma TransformJSON_panics_on_wrong_payload :
  TransformJSON [("a", Map [("S", Bool true)])] = Panic /\
  ~ exists out, TransformJSON [("a", Map [("S", Bool true)])] = Ok out.
Proof. split; [reflexivity | intros [out H]; discriminate H]. Qed.

(** The list example does not yield [{"a": [{"b": 3.0}]}]. *)
Lemma FormatList_example_differs :
  TransformJSON
    [("a", Map [("L", Slice [Map [("M", Map [("b", Map [("N", Str "3")])])];
                             Map [("S", Str "ignored-not-object")]])])]
  <> Ok [("a", Slice [Map [("b", Float64 3%float)]])].
Proof. intros H. vm_compute in H. discriminate H. Qed.

Lemma TransformJSON_drops_witness :
  (forall k, In k ["a"] <->
     exists kv, In kv [(" a ", Map [("BOOL", Str "t")]); ("b", Str "plain"); ("  ", Nil)]
                /\ dropped kv = false /\ sanitizeKey (fst kv) = k) /\
  TransformJSON [("b", Str "plain"); ("c", Map [("X", Str "y")])] = Ok [].
Proof.
  split.
  - exact (proj1 (TransformJSON_drops
                    [(" a ", Map [("BOOL", Str "t")]); ("b", Str "plain"); ("  ", Nil)])
             [("a", Bool true)] eq_refl).
  - exact (proj2 (proj2 (TransformJSON_drops
                    [("b", Str "plain"); ("c", Map [("X", Str "y")])])) eq_refl).
Defined.

Lemma FormatString_spec_witness :
  ParseRFC3339 "2021-01-01T00:00:00Z" = inl {| sec := 1609459200; nsec := 0 |} /\
  FormatString (Str "2021-01-01T00:00:00Z") = Ok (Int64 1609459200) /\
  ParseRFC3339 "hello" = inr syntaxError /\
  FormatString (Str "hello") = Ok (Str "hello").
Proof.
  split; [reflexivity | split; [|split; [reflexivity|]]].
  - exact (proj1 (proj1 (FormatString_spec "2021-01-01T00:00:00Z")
                    {| sec := 1609459200; nsec := 0 |} eq_refl)).
  - exact (proj2 (FormatString_spec "hello") syntaxError eq_refl).
Defined.

Lemma FormatString_whole_seconds_witness :
  ParseRFC3339 "2021-01-01T00:00:00.9Z"
    = inl {| sec := 1609459200; nsec := 900000000 |} /\
  FormatString (Str "2021-01-01T00:00:00.9Z") = Ok (Int64 1609459200).
Proof.
  split; [reflexivity|].
  exact (proj1 (FormatString_whole_seconds "2021-01-01T00:00:00.9Z"
                  {| sec := 1609459200; nsec := 900000000 |} eq_refl)).
Defined.

Lemma FormatNum_spec_witness :
  ParseFloat "3" = inl 3%float /\
  FormatNum (Str "3") = Ok (Float64 3%float) /\
  ParseFloat "three" = inr syntaxError /\
  FormatNum (Str "three") = Ok (Float64 0%float).
Proof.
  split; [reflexivity | split; [|split; [reflexivity|]]].
  - exact (proj1 (FormatNum_spec "3") 3%float eq_refl).
  - exact (proj1 (proj2 (FormatNum_spec "three")) syntaxError eq_refl).
Defined.

Lemma sanitizeKey_keys_only_witness :
  ParseRFC3339 " val" = inr syntaxError /\
  sanitizeKey " a " = "a" /\
  TransformJSON [(" a ", Map [("S", Str " val")])] = Ok [("a", Str " val")].
Proof.
  split; [reflexivity|].
  exact (proj2 (proj2 (proj2 (sanitizeKey_keys_only " a "))) syntaxError eq_refl).
Defined.

Lemma TransformJSON_keys_clean_witness :
  TransformJSON
    [(" a ", Map [("M", Map [(" b", Map [("L", Slice [Map [("c ", Map [("NULL", Str "")])]])])])])]
  = Ok [("a", Map [("b", Slice [Map [("c", Nil)]])])] /\
  cleanKeys (Map [("a", Map [("b", Slice [Map [("c", Nil)]])])]) = true.
Proof.
  split; [reflexivity|].
  exact (TransformJSON_keys_clean
           [(" a ", Map [("M", Map [(" b", Map [("L", Slice [Map [("c ", Map [("NULL", Str "")])]])])])])]
           [("a", Map [("b", Slice [Map [("c", Nil)]])])] eq_refl).
Defined.

End Examples.

(* ================================================================== *)
(** ** More about key sanitizing *)

Section SanitizeFacts.
Import Bytes Strings.

Lemma length_of_string s : length (of_string s) = String.length s.
Proof. induction s as [|c s IH]; simpl; [reflexivity | now rewrite IH]. Qed.

Lemma trimLeftLoop_stop n s : leadingSpace s = None -> trimLeftLoop n s = s.
Proof. intros H. destruct n; simpl; [reflexivity | now rewrite H]. Qed.

Lemma trimRightLoop_stop n s : trailingSpace s = None -> trimRightLoop n s = s.
Proof. intros H. destruct n; simpl; [reflexivity | now rewrite H]. Qed.

Lemma TrimSpace_trimmed s : trimmed s = true -> TrimSpace s = s.
Proof.
  unfold trimmed, TrimSpace, trimLeft, trimRight. intros H.
  destruct (leadingSpace (of_string s)) eqn:L; [discriminate|].
  destruct (trailingSpace (of_string s)) eqn:R; [discriminate|].
  rewrite (trimLeftLoop_stop _ _ L), (trimRightLoop_stop _ _ R).
  apply to_of_string.
Qed.




End SanitizeFacts.

(** X1. [sanitizeKey] leaves a key as it is exactly when the key is
    already trimmed; so sanitizing twice is sanitizing once; and the
    sanitized key is never longer than the key. *)
Theorem sanitizeKey_fixed_points (key : string) :
  (sanitizeKey key = key <-> trimmed key = true) /\
  sanitizeKey (sanitizeKey key) = sanitizeKey key /\
  (String.length (sanitizeKey key) <= String.length key)%nat.
Proof.
  split; [split | split].
  - intros E. rewrite <- E. apply sanitizeKey_trimmed.
  - apply TrimSpace_trimmed.
  - apply TrimSpace_trimmed, sanitizeKey_trimmed.
  - destruct (TrimSpace_spec key) as [_ [l [r [_ [_ E]]]]].
    apply (f_equal (@length _)) in E.
    rewrite !length_app, !length_of_string in E. unfold sanitizeKey. lia.
Qed.


(* ================================================================== *)
(** ** More about maps *)

Lemma mapGet_cons {A} (k' : string) (v : A) m k :
  mapGet ((k', v) :: m) k = if String.eqb k' k then Some v else mapGet m k.
Proof. reflexivity. Qed.

Lemma mapGet_mapSet m k v k' :
  mapGet (mapSet m k v) k' = if String.eqb k k' then Some v else mapGet m k'.
Proof.
  induction m as [|[k0 w] m IH]; simpl.
  - rewrite mapGet_cons. reflexivity.
  - destruct (String.eqb k0 k) eqn:E; rewrite !mapGet_cons.
    + apply String.eqb_eq in E. subst k0.
      destruct (String.eqb k k'); reflexivity.
    + rewrite IH. destruct (String.eqb k0 k') eqn:E'; [|reflexivity].
      apply String.eqb_eq in E'. subst k0. now rewrite String.eqb_sym, E.
Qed.

Lemma NoDup_keys_mapSet m k v : NoDup (keys m) -> NoDup (keys (mapSet m k v)).
Proof.
  unfold keys. induction m as [|[k0 w] m IH]; simpl; intros H.
  - constructor; [intros [] | constructor].
  - inversion H as [|? ? Hnotin Hm]; subst.
    destruct (String.eqb k0 k) eqn:E; simpl.
    + apply String.eqb_eq in E. subst k0. now constructor.
    + constructor; [|now apply IH].
      intros Hin. apply (keys_mapSet m k v k0) in Hin as [Hin | ->];
        [contradiction | now rewrite String.eqb_refl in E].
Qed.

Lemma find_snoc {A} (P : A -> bool) l a :
  find P (l ++ [a]) =
  match find P l with Some y => Some y | None => if P a then Some a else None end.
Proof.
  induction l as [|b l IH]; simpl; [reflexivity|].
  destruct (P b); [reflexivity | assumption].
Qed.

Lemma NoDup_map_inj {A B} (f : A -> B) l a b :
  NoDup (map f l) -> In a l -> In b l -> f a = f b -> a = b.
Proof.
  induction l as [|x l IH]; simpl; intros H Ha Hb E; [contradiction|].
  inversion H as [|? ? Hnotin Hl]; subst.
  destruct Ha as [-> | Ha], Hb as [-> | Hb]; try reflexivity.
  - exfalso. apply Hnotin. rewrite E. now apply in_map.
  - exfalso. apply Hnotin. rewrite <- E. now apply in_map.
  - now apply IH.
Qed.

(* ================================================================== *)
(** ** More about the dispatcher *)

Section DispatcherFacts.
Context {lib : StdLib}.

Lemma lastTag_cons a val :
  lastTag (a :: val) =
  match lastTag val with
  | Some y => Some y
  | None => if recognizedTag (fst a) then Some a else None
  end.
Proof. unfold lastTag. simpl. now rewrite find_snoc. Qed.

Lemma lastLive_cons k a m :
  lastLive k (a :: m) =
  match lastLive k m with
  | Some y => Some y
  | None => if live a && String.eqb (sanitizeKey (fst a)) k then Some a else None
  end.
Proof. unfold lastLive. simpl. now rewrite find_snoc. Qed.

Lemma yields_functional kv x y : yields kv x -> yields kv y -> x = y.
Proof.
  intros [val [tag [rule [Ev [Et [Er Ec]]]]]] [val' [tag' [rule' [Ev' [Et' [Er' Ec']]]]]].
  rewrite Ev in Ev'. injection Ev' as <-. rewrite Et in Et'. injection Et' as <-.
  rewrite Er in Er'. injection Er' as <-. congruence.
Qed.

(** The inner loop keeps what the rule of the last recognized tag
    returned. *)
Lemma tag_loop_last F key val : forall acc outMap,
  range (TransformJSON_tag F key) val acc = Ok outMap ->
  match lastTag val with
  | None => outMap = acc
  | Some tag => exists rule x,
      mapGet TransformRules (sanitizeKey (fst tag)) = Some rule /\
      call F rule (snd tag) = Ok x /\ outMap = mapSet acc key x
  end.
Proof.
  induction val as [|a val IH]; intros acc outMap; simpl.
  - intros [= <-]. reflexivity.
  - intros H. apply bind_Ok in H as [acc1 [H1 H2]].
    specialize (IH _ _ H2). rewrite lastTag_cons.
    unfold TransformJSON_tag in H1. unfold recognizedTag.
    destruct (mapGet TransformRules (sanitizeKey (fst a))) as [rule|] eqn:E.
    + apply bind_Ok in H1 as [x [Hx [= <-]]].
      destruct (lastTag val) as [tag|].
      * destruct IH as [rule' [x' [Hr [Hc ->]]]]. exists rule', x'.
        rewrite mapSet_twice. auto.
      * subst outMap. exists rule, x. auto.
    + injection H1 as <-. destruct (lastTag val); exact IH.
Qed.

Lemma entry_last output kv out' :
  TransformJSON_entry FormatMap output kv = Ok out' ->
  if live kv
  then exists x, yields kv x /\ out' = mapSet output (sanitizeKey (fst kv)) x
  else out' = output.
Proof.
  intros H. unfold live. destruct (dropped kv) eqn:D; simpl.
  - rewrite (entry_dropped FormatMap output kv D) in H. congruence.
  - revert H. unfold TransformJSON_entry, dropped in *.
    apply orb_false_iff in D as [Dk Dt]. rewrite Dk.
    destruct (snd kv) as [| | | | | |val] eqn:Ev; try discriminate Dt.
    intros H. apply bind_Ok in H as [outMap [H1 H2]].
    apply tag_loop_last in H1.
    destruct (lastTag val) as [tag|] eqn:Et.
    + destruct H1 as [rule [x [Hr [Hc ->]]]]. simpl in H2. injection H2 as <-.
      exists x. split; [|reflexivity]. exists val, tag, rule. auto.
    + exfalso. simpl in Dt. apply negb_false_iff in Dt.
      apply existsb_exists in Dt as [t [Hin Ht]].
      unfold lastTag in Et.
      pose proof (find_none _ _ Et t (proj1 (in_rev val t) Hin)) as Hf.
      cbv beta in Hf. congruence.
Qed.

(** The lookup of a key in the output is decided by the last entry, in
    iteration order, that is not dropped and has that sanitized key. *)
Lemma entries_lookup m : forall output out,
  range (TransformJSON_entry FormatMap) m output = Ok out ->
  forall k,
    match lastLive k m with
    | None => mapGet out k = mapGet output k
    | Some kv => exists x, yields kv x /\ mapGet out k = Some x
    end.
Proof.
  induction m as [|a m IH]; intros output out; simpl.
  - intros [= <-] k. reflexivity.
  - intros H k. apply bind_Ok in H as [out1 [H1 H2]].
    specialize (IH _ _ H2 k). rewrite lastLive_cons.
    destruct (lastLive k m) as [kv|]; [exact IH|].
    apply entry_last in H1. destruct (live a); simpl.
    + destruct H1 as [x [Hy ->]]. rewrite mapGet_mapSet in IH.
      destruct (String.eqb (sanitizeKey (fst a)) k); [now exists x | exact IH].
    + now subst out1.
Qed.

Lemma TransformJSON_returns m :
  (exists out, TransformJSON m = Ok out) <-> wellShaped m = true.
Proof.
  pose proof (FormatMap_returns (Map m)) as H.
  unfold returns in H. rewrite FormatMap_Map in H. simpl in H.
  fold (wellShaped m) in H. rewrite <- H. split.
  - intros [out E]. rewrite E. simpl. eauto.
  - intros [out E]. apply bind_Ok in E as [o [E _]]. eauto.
Qed.

Lemma lastLive_In k m kv :
  lastLive k m = Some kv -> In kv m /\ live kv = true /\ sanitizeKey (fst kv) = k.
Proof.
  unfold lastLive. intros H. apply find_some in H as [Hin HP].
  apply andb_true_iff in HP as [Hl Hk]. apply String.eqb_eq in Hk.
  split; [now apply in_rev | auto].
Qed.

Lemma lastLive_unique m kv :
  NoDup (liveKeys m) -> In kv m -> live kv = true ->
  lastLive (sanitizeKey (fst kv)) m = Some kv.
Proof.
  intros Hnd Hin Hl.
  destruct (lastLive (sanitizeKey (fst kv)) m) as [kv'|] eqn:E.
  - apply lastLive_In in E as [Hin' [Hl' Hk']]. f_equal.
    apply (NoDup_map_inj (fun kv => sanitizeKey (fst kv)) (filter live m));
      try assumption; apply filter_In; auto.
  - exfalso. unfold lastLive in E.
    pose proof (find_none _ _ E kv (proj1 (in_rev m kv) Hin)) as HP.
    cbv beta in HP. now rewrite Hl, String.eqb_refl in HP.
Qed.

End DispatcherFacts.

Lemma Permutation_filter_live (m m' : object) :
  Permutation m m' -> Permutation (filter live m) (filter live m').
Proof.
  induction 1 as [|x l l' H IH|x y l|l l' l'' H1 IH1 H2 IH2]; simpl.
  - constructor.
  - destruct (live x); [now constructor | assumption].
  - destruct (live x), (live y); try apply Permutation_refl. apply perm_swap.
  - now apply (Permutation_trans IH1).
Qed.


Section DispatcherLaws.
Context {lib : StdLib}.

(** X3. The entries [TransformJSON] drops have no effect at all: the
    input without them is transformed to the same result, panics
    included. *)
Theorem TransformJSON_without_dropped (inputMap : object) :
  TransformJSON (filter live inputMap) = TransformJSON inputMap.
Proof.
  unfold TransformJSON, TransformJSON_with. generalize (@nil (string * value)).
  induction inputMap as [|kv m IH]; intros output; simpl; [reflexivity|].
  unfold live at 1. destruct (dropped kv) eqn:D; simpl.
  - rewrite (entry_dropped FormatMap output kv D). simpl. apply IH.
  - destruct (TransformJSON_entry FormatMap output kv); simpl; [apply IH | reflexivity].
Qed.


(** X5. Looking a key up in the object [TransformJSON] returns: the key
    is absent when no entry that is not dropped has it as its sanitized
    key; otherwise it is bound to what the last such entry, in iteration
    order, yields, which is the result of the rule of the recognized tag
    visited last inside that entry. *)
Theorem TransformJSON_lookup (inputMap out : object) :
  TransformJSON inputMap = Ok out ->
  forall k,
    match lastLive k inputMap with
    | None => mapGet out k = None
    | Some kv => exists x, yields kv x /\ mapGet out k = Some x
    end.
Proof.
  intros H k. exact (entries_lookup inputMap [] out H k).
Qed.

(** X6. When the sanitized keys of the entries that are not dropped are
    pairwise distinct, the order in which [range] visits the entries of
    the input map does not matter: any other order returns an object
    with the same binding for every key. *)
Theorem TransformJSON_order_independent (inputMap inputMap' out : object) :
  Permutation inputMap inputMap' ->
  NoDup (liveKeys inputMap) ->
  TransformJSON inputMap = Ok out ->
  exists out', TransformJSON inputMap' = Ok out' /\
    forall k, mapGet out' k = mapGet out k.
Proof.
  intros HP Hnd H.
  assert (W : wellShaped inputMap' = true).
  { assert (W : wellShaped inputMap = true) by (apply TransformJSON_returns; eauto).
    unfold wellShaped in *. rewrite forallb_forall in *.
    intros kv Hin. apply W. now apply (Permutation_in kv (Permutation_sym HP)). }
  apply TransformJSON_returns in W as [out' H']. exists out'. split; [assumption|].
  assert (Hnd' : NoDup (liveKeys inputMap'))
    by (apply (Permutation_NoDup (l := liveKeys inputMap)); [|assumption];
        apply Permutation_map; now apply Permutation_filter_live).
  intros k.
  pose proof (entries_lookup inputMap [] out H k) as L.
  pose proof (entries_lookup inputMap' [] out' H' k) as L'.
  destruct (lastLive k inputMap) as [kv|] eqn:E.
  - apply lastLive_In in E as [Hin [Hl <-]].
    rewrite (lastLive_unique inputMap' kv Hnd' (Permutation_in kv HP Hin) Hl) in L'.
    destruct L as [x [Hx ->]], L' as [x' [Hx' ->]].
    f_equal. exact (yields_functional kv x' x Hx' Hx).
  - destruct (lastLive k inputMap') as [kv'|] eqn:E'.
    + apply lastLive_In in E' as [Hin' [Hl' <-]].
      rewrite (lastLive_unique inputMap kv' Hnd
                 (Permutation_in kv' (Permutation_sym HP) Hin') Hl') in E.
      discriminate.
    + now rewrite L, L'.
Qed.

(** X7. The keys of the object [TransformJSON] returns are pairwise
    distinct, and the object has no more entries than the input has
    entries that are not dropped. *)
Theorem TransformJSON_output_size (inputMap out : object) :
  TransformJSON inputMap = Ok out ->
  NoDup (keys out) /\
  (length out <= length (filter live inputMap) <= length inputMap)%nat.
Proof.
  intros H.
  assert (Hnd : NoDup (keys out)).
  { revert H. unfold TransformJSON, TransformJSON_with.
    apply (range_invariant (fun output => NoDup (keys output))); [|constructor].
    intros output kv out' _ Hout Hstep.
    apply entry_spec in Hstep
      as [[_ ->] | [_ [val [k [v [rule [x [_ [_ [_ [_ ->]]]]]]]]]]];
      [assumption | now apply NoDup_keys_mapSet]. }
  split; [assumption | split].
  - assert (Hincl : incl (keys out) (liveKeys inputMap)).
    { intros k Hk.
      apply (entries_keys FormatMap inputMap [] out H k) in Hk as [[] | [kv [Hin [D <-]]]].
      unfold liveKeys.
      apply (in_map (fun kv => sanitizeKey (fst kv))), filter_In.
      split; [assumption | unfold live; now rewrite D]. }
    apply (NoDup_incl_length Hnd) in Hincl.
    unfold keys, liveKeys in Hincl. now rewrite !length_map in Hincl.
  - apply filter_length_le.
Qed.

End DispatcherLaws.

(* ================================================================== *)
(** ** The shape of the output *)

Lemma objectArrays_mapSet m k x :
  objectArrays (Map m) = true -> objectArrays x = true ->
  objectArrays (Map (mapSet m k x)) = true.
Proof.
  intros Hm Hx. induction m as [|[k0 w] m IH]; simpl in *.
  - now rewrite Hx.
  - apply andb_true_iff in Hm as [H0 Hm].
    destruct (String.eqb k0 k); simpl.
    + now rewrite Hx, Hm.
    + now rewrite H0, (IH Hm).
Qed.

Section OutputShape.
Context {lib : StdLib}.

Lemma call_resultType F rule v x :
  (forall u out, F u = Ok out -> isMap out = true) ->
  call F rule v = Ok x -> resultType rule x = true.
Proof.
  intros HF. destruct rule; simpl.
  - destruct v; simpl; try discriminate.
    destruct (ParseRFC3339 s); intros [= <-]; reflexivity.
  - destruct v; simpl; try discriminate. intros [= <-]; reflexivity.
  - destruct v; simpl; try discriminate.
    destruct (String.eqb s "1" || String.eqb s "t" || String.eqb s "true")%bool;
      intros [= <-]; reflexivity.
  - unfold FormatNull. intros [= <-]; reflexivity.
  - intros H. apply HF in H. destruct x; try discriminate. reflexivity.
  - destruct v; simpl; try discriminate.
    intros H. apply bind_Ok in H as [outList [_ [= <-]]]. reflexivity.
Qed.

Lemma FormatMap_isMap u out : FormatMap u = Ok out -> isMap out = true.
Proof. intros H. apply FormatMap_Ok in H as [m [o [_ [_ ->]]]]. reflexivity. Qed.

Lemma call_arrays rule v x :
  (forall u, (size u <= size v)%nat -> arraysResult u) ->
  call FormatMap rule v = Ok x -> objectArrays x = true.
Proof.
  intros IH. destruct rule; simpl.
  - destruct v; simpl; try discriminate.
    destruct (ParseRFC3339 s); intros [= <-]; reflexivity.
  - destruct v; simpl; try discriminate. intros [= <-]; reflexivity.
  - destruct v; simpl; try discriminate.
    destruct (String.eqb s "1" || String.eqb s "t" || String.eqb s "true")%bool;
      intros [= <-]; reflexivity.
  - unfold FormatNull. intros [= <-]; reflexivity.
  - apply IH. lia.
  - destruct v as [| | | | |l|]; simpl; try discriminate.
    intros H. apply bind_Ok in H as [outList [H [= <-]]]. simpl.
    revert H.
    apply (range_invariant
             (fun acc => forallb (fun x => isMap x && objectArrays x) acc = true));
      [|reflexivity].
    intros acc item acc' Hin Hacc. destruct item; simpl;
      try (intros [= <-]; assumption).
    fold (FormatMap (Map m)). intros H. apply bind_Ok in H as [out [H [= <-]]].
    change (FormatMap (Map m) = Ok out) in H.
    rewrite forallb_app, Hacc. simpl.
    rewrite (FormatMap_isMap _ _ H). simpl.
    rewrite (IH (Map m) (Nat.lt_le_incl _ _ (size_item l (Map m) Hin)) out H).
    reflexivity.
Qed.

Lemma FormatMap_arrays v : arraysResult v.
Proof.
  induction v as [v IH] using value_size_ind.
  intros out H. apply FormatMap_Ok in H as [m [o [-> [H ->]]]].
  revert H. unfold TransformJSON, TransformJSON_with.
  apply (range_invariant (fun output => objectArrays (Map output) = true));
    [|reflexivity].
  intros output kv out' Hin Hout H.
  apply entry_spec in H
    as [[_ ->] | [D [val [k [v [rule [x [Ev [Hkv [_ [Hc ->]]]]]]]]]]];
    [assumption|].
  apply objectArrays_mapSet; [assumption|].
  apply (call_arrays rule v x); [|assumption].
  intros u Hu. apply IH.
  apply (Nat.le_lt_trans _ _ _ Hu).
  apply (Nat.lt_trans _ (size (Map val))); [now apply (size_entry val k)|].
  rewrite <- Ev. apply (size_entry m (fst kv)). now destruct kv.
Qed.

(** X8. In the object [TransformJSON] returns, every array, at every
    depth, holds objects only: the [L] rule never lets a string, a
    number, a boolean, a null or an array into an output array. *)
Theorem TransformJSON_arrays_of_objects (inputMap out : object) :
  TransformJSON inputMap = Ok out -> objectArrays (Map out) = true.
Proof.
  intros H. apply (FormatMap_arrays (Map inputMap)).
  rewrite FormatMap_Map, H. reflexivity.
Qed.

(** X9. The dynamic type of the value an entry yields is fixed by the
    recognized tag visited last in it: a string or an [int64] for [S], a
    [float64] for [N], a [bool] for [BOOL], [nil] for [NULL], a map for
    [M] and a slice for [L]. *)
Theorem yields_typed (kv : string * value) (x : value) :
  yields kv x ->
  exists val tag rule,
    snd kv = Map val /\ lastTag val = Some tag /\
    mapGet TransformRules (sanitizeKey (fst tag)) = Some rule /\
    resultType rule x = true.
Proof.
  intros [val [tag [rule [Ev [Et [Er Ec]]]]]]. exists val, tag, rule.
  repeat split; try assumption.
  exact (call_resultType FormatMap rule (snd tag) x FormatMap_isMap Ec).
Qed.

End OutputShape.

(* ================================================================== *)
(** ** The schema file and the program *)

Section ProgramFacts.
Context {lib : StdLib}.
Variable Unmarshal : string -> object + liberror.
Variable Marshal : object -> string + liberror.

(** X10. [ParseSchema] returns a map exactly when the name contains
    [".json"], the file can be read and its content decodes, and then
    the map is the decoder's; an error of [os.ReadFile] or of
    [json.Unmarshal] is returned as it is; the files are left as they
    were, and no file but the named one is read. *)
Theorem ParseSchema_outcomes (fileName : string) (w : World) :
  (forall m, snd (ParseSchema Unmarshal fileName w) = inl m <->
     Strings.Contains fileName ".json" = true /\
     exists data, files w fileName = inl data /\ Unmarshal data = inl m) /\
  (forall e, snd (ParseSchema Unmarshal fileName w) = inr (FromLibrary e) <->
     Strings.Contains fileName ".json" = true /\
     (files w fileName = inr e \/
      exists data, files w fileName = inl data /\ Unmarshal data = inr e)) /\
  files (fst (ParseSchema Unmarshal fileName w)) = files w /\
  (reads (fst (ParseSchema Unmarshal fileName w)) = reads w \/
   reads (fst (ParseSchema Unmarshal fileName w)) = reads w ++ [fileName]).
Proof.
  unfold ParseSchema.
  destruct (Strings.Contains fileName ".json"); simpl.
  - destruct (files w fileName) as [data|err] eqn:Ef; simpl.
    + destruct (Unmarshal data) as [m0|err] eqn:Eu; simpl.
      * split; [|split; [|split; [reflexivity | now right]]].
        -- intros m. split.
           ++ intros [= <-]. split; [reflexivity | now exists data].
           ++ intros [_ [data' [[= <-] Hu]]]. congruence.
        -- intros e. split; [discriminate|].
           intros [_ [H | [data' [[= <-] Hu]]]]; congruence.
      * split; [|split; [|split; [reflexivity | now right]]].
        -- intros m. split; [discriminate|].
           intros [_ [data' [[= <-] Hu]]]. congruence.
        -- intros e. split.
           ++ intros [= <-]. split; [reflexivity | right; now exists data].
           ++ intros [_ [H | [data' [[= <-] Hu]]]]; congruence.
    + split; [|split; [|split; [reflexivity | now right]]].
      * intros m. split; [discriminate|].
        intros [_ [data' [H _]]]. discriminate.
      * intros e. split.
        -- intros [= <-]. split; [reflexivity | now left].
        -- intros [_ [H | [data' [H _]]]]; congruence.
  - split; [|split; [|split; [reflexivity | now left]]].
    + intros m. split; [discriminate | intros [H _]; discriminate].
    + intros e. split; [discriminate | intros [H _]; discriminate].
Qed.

(** X11. A run of [main] that returns has written exactly one line; a
    run that crashes has written none, and [main] crashes exactly when
    the schema file was parsed to a map that the engine panics on, that
    is, one in which some payload has not the type its rule asserts. *)
Theorem main_one_line_or_crash (config : option string) (w : World) :
  let name := match config with Some name => name | None => "schema.json" end in
  let run := main Unmarshal Marshal config w in
  (status run = Returned -> exists line, stdout run = [line]) /\
  (status run = Crashed -> stdout run = []) /\
  (status run = Crashed <->
     exists inputMap, snd (ParseSchema Unmarshal name w) = inl inputMap /\
                      wellShaped inputMap = false) /\
  world run = fst (ParseSchema Unmarshal name w).
Proof.
  cbv zeta. unfold main.
  destruct (ParseSchema Unmarshal
              match config with Some name => name | None => "schema.json" end w)
    as [w' [inputMap|err]]; simpl.
  - destruct (TransformJSON inputMap) as [output|] eqn:E.
    + assert (W : wellShaped inputMap = true)
        by (apply TransformJSON_returns; eauto).
      destruct (Marshal output); simpl; repeat split; eauto; try discriminate;
        intros [m [[= <-] Hm]]; congruence.
    + assert (W : wellShaped inputMap = false).
      { destruct (wellShaped inputMap) eqn:W; [|reflexivity].
        apply TransformJSON_returns in W as [out W]. congruence. }
      simpl. repeat split; eauto; discriminate.
  - repeat split; eauto; try discriminate. intros [m [H _]]. discriminate.
Qed.

(** X12. Given a configuration name that does not contain [".json"],
    [main] writes the line [error : config file is not a JSON file],
    reads no file and returns. *)
Theorem main_rejects_name (name : string) (w : World) :
  Strings.Contains name ".json" = false ->
  main Unmarshal Marshal (Some name) w =
  {| world := w;
     stdout := ["error : config file is not a JSON file"];
     status := Returned |}.
Proof.
  intros H. unfold main, ParseSchema. rewrite H. reflexivity.
Qed.


End ProgramFacts.

Section PanicOrder.
Context {lib : StdLib}.

(** X14. Whether [TransformJSON] panics does not depend on the order in
    which [range] visits the entries of the input map: every entry is
    visited, and a wrong payload under any of them stops the call. *)
Theorem TransformJSON_panic_any_order (inputMap inputMap' : object) :
  Permutation inputMap inputMap' ->
  (TransformJSON inputMap = Panic <-> TransformJSON inputMap' = Panic).
Proof.
  assert (G : forall m m', Permutation m m' ->
                TransformJSON m = Panic -> TransformJSON m' = Panic).
  { intros m m' HP H. destruct (TransformJSON m') as [out'|] eqn:E; [|reflexivity].
    assert (W' : wellShaped m' = true) by (apply TransformJSON_returns; eauto).
    assert (W : wellShaped m = true).
    { unfold wellShaped in *. rewrite forallb_forall in *.
      intros kv Hin. apply W'. now apply (Permutation_in kv HP). }
    apply TransformJSON_returns in W as [out W]. congruence. }
  intros HP. split; [apply G | apply G, Permutation_sym]; assumption.
Qed.

End PanicOrder.

(* ================================================================== *)
(** ** The further theorems at work, on the reference library *)

Section MoreExamples.
Import Reference.
#[local] Existing Instance Reference.stdlib.

Lemma TransformJSON_lookup_witness :
  TransformJSON [("a", Map [("S", Str "x")]); (" a ", Map [("N", Str "3"); ("BOOL", Str "t")])]
  = Ok [("a", Bool true)] /\
  (exists x, yields (" a ", Map [("N", Str "3"); ("BOOL", Str "t")]) x /\
             mapGet [("a", Bool true)] "a" = Some x) /\
  mapGet [("a", Bool true)] "b" = None.
Proof.
  split; [reflexivity | split].
  - exact (TransformJSON_lookup
             [("a", Map [("S", Str "x")]); (" a ", Map [("N", Str "3"); ("BOOL", Str "t")])]
             [("a", Bool true)] eq_refl "a").
  - exact (TransformJSON_lookup
             [("a", Map [("S", Str "x")]); (" a ", Map [("N", Str "3"); ("BOOL", Str "t")])]
             [("a", Bool true)] eq_refl "b").
Defined.

Lemma TransformJSON_order_independent_witness :
  Permutation [("a", Map [("S", Str "x")]); ("b", Map [("N", Str "3")])]
              [("b", Map [("N", Str "3")]); ("a", Map [("S", Str "x")])] /\
  exists out',
    TransformJSON [("b", Map [("N", Str "3")]); ("a", Map [("S", Str "x")])] = Ok out' /\
    forall k, mapGet out' k = mapGet [("a", Str "x"); ("b", Float64 3%float)] k.
Proof.
  split; [apply perm_swap|].
  apply (TransformJSON_order_independent
           [("a", Map [("S", Str "x")]); ("b", Map [("N", Str "3")])]
           [("b", Map [("N", Str "3")]); ("a", Map [("S", Str "x")])]
           [("a", Str "x"); ("b", Float64 3%float)]).
  - apply perm_swap.
  - vm_compute. constructor; [intros [H | []]; discriminate H|].
    constructor; [intros [] | constructor].
  - reflexivity.
Defined.

Lemma TransformJSON_output_size_witness :
  NoDup (keys [("a", Float64 3%float)]) /\
  (length [("a", Float64 3%float)]
   <= length (filter live [("a", Map [("S", Str "x")]); ("b", Str "plain");
                           (" a", Map [("N", Str "3")])])
   <= 3)%nat.
Proof.
  exact (TransformJSON_output_size
           [("a", Map [("S", Str "x")]); ("b", Str "plain"); (" a", Map [("N", Str "3")])]
           [("a", Float64 3%float)] eq_refl).
Defined.

Lemma TransformJSON_arrays_of_objects_witness :
  TransformJSON [("a", Map [("L", Slice [Str "x"; Map [("b", Map [("S", Str "y")])]; Nil])])]
  = Ok [("a", Slice [Map [("b", Str "y")]])] /\
  objectArrays (Map [("a", Slice [Map [("b", Str "y")]])]) = true.
Proof.
  split; [reflexivity|].
  exact (TransformJSON_arrays_of_objects
           [("a", Map [("L", Slice [Str "x"; Map [("b", Map [("S", Str "y")])]; Nil])])]
           [("a", Slice [Map [("b", Str "y")]])] eq_refl).
Defined.

Lemma yields_typed_witness :
  exists val tag rule,
    snd ("a", Map [("X", Nil); (" N ", Str "3")]) = Map val /\
    lastTag val = Some tag /\
    mapGet TransformRules (sanitizeKey (fst tag)) = Some rule /\
    resultType rule (Float64 3%float) = true.
Proof.
  apply (yields_typed ("a", Map [("X", Nil); (" N ", Str "3")]) (Float64 3%float)).
  exists [("X", Nil); (" N ", Str "3")], (" N ", Str "3"), FormatNumRule.
  repeat split; reflexivity.
Defined.

Lemma main_rejects_name_witness :
  main (fun _ => inr syntaxError) (fun _ => inr syntaxError) (Some "schema.txt")
       {| files := fun _ => inr (LibError "no such file"); reads := [] |}
  = {| world := {| files := fun _ => inr (LibError "no such file"); reads := [] |};
       stdout := ["error : config file is not a JSON file"];
       status := Returned |}.
Proof.
  exact (main_rejects_name (fun _ => inr syntaxError) (fun _ => inr syntaxError)
           "schema.txt"
           {| files := fun _ => inr (LibError "no such file"); reads := [] |} eq_refl).
Defined.


Lemma TransformJSON_panic_any_order_witness :
  Permutation [("a", Map [("S", Bool true)]); ("b", Nil)]
              [("b", Nil); ("a", Map [("S", Bool true)])] /\
  TransformJSON [("b", Nil); ("a", Map [("S", Bool true)])] = Panic.
Proof.
  split; [apply perm_swap|].
  exact (proj1 (TransformJSON_panic_any_order
                  [("a", Map [("S", Bool true)]); ("b", Nil)]
                  [("b", Nil); ("a", Map [("S", Bool true)])]
                  (perm_swap _ _ _)) eq_refl).
Defined.

End MoreExamples.
